(** * Shallow embedding of sarama-cluster's offset ledger, partition
    consumer and partition-id difference utility (cluster.go and the
    partition-consumer file), with proofs of their specified behaviour. *)

From Stdlib Require Import ZArith Ascii String List Sorted Lia.
From stdpp Require Import base gmap sets list strings sorting.
Import ListNotations.

(* ------------------------------------------------------------------ *)
(** ** Go runtime vocabulary *)

(** A Go string is a sequence of bytes. *)
Abbreviation gostring := (list ascii).

(** A Go [map[int64]struct{}]: [None] is the nil map, [Some m] an
    allocated map with key set [m]. *)
Abbreviation gomap := (option (gset Z)).

Definition map_keys (pm : gomap) : gset Z :=
  match pm with None => ∅ | Some m => m end.

(** [len(m)]: the nil map has length 0. *)
Definition map_len (pm : gomap) : nat := size (map_keys pm).

(** [for k := range m] visits the keys in an order the runtime picks anew
    on every loop.  A loop is modelled with that order as an explicit
    argument [ord]; [range_order pm ord] says [ord] is one of the orders
    the runtime may produce for [pm]. *)
Definition range_order (pm : gomap) (ord : list Z) : Prop :=
  ord ≡ₚ elements (map_keys pm).

(** Run-time panics the modelled code can raise. *)
Inductive panic :=
| NilPointerDeref   (* method body dereferences a nil receiver *)
| NilMapWrite.      (* assignment to an entry of a nil map *)

Inductive outcome (A : Type) :=
| Ret (a : A)
| Panic (p : panic).
Arguments Ret {A} a.
Arguments Panic {A} p.

Definition obind {A B} (m : outcome A) (k : A -> outcome B) : outcome B :=
  match m with Ret a => k a | Panic p => Panic p end.
Notation "x <- m ;; k" := (obind m (fun x => k))
  (at level 100, m at next level, right associativity).

(** Go error values: [None] is [nil]. *)
Inductive goerror :=
| ErrOffsetOutOfRange          (* sarama.ErrOffsetOutOfRange *)
| ErrOther (msg : gostring).
Abbreviation error := (option goerror).

(* ------------------------------------------------------------------ *)
(** ** strconv and strings *)

Definition comma : ascii := ","%char.

(** [strings.Split(s, ",")]: [n] separators give [n+1] parts, and the
    empty string gives one empty part. *)
Fixpoint split_comma (s : gostring) : list gostring :=
  match s with
  | [] => [[]]
  | c :: r =>
      let parts := split_comma r in
      if Ascii.eqb c comma then [] :: parts
      else match parts with
           | p :: ps => (c :: p) :: ps
           | [] => [[c]]
           end
  end.

(** Value of a base-10 digit byte. *)
Definition digit_value (c : ascii) : option Z :=
  let n := nat_of_ascii c in
  if (48 <=? n)%nat && (n <=? 57)%nat then Some (Z.of_nat n - 48)%Z
  else None.

Fixpoint parse_digits (acc : Z) (s : gostring) : option Z :=
  match s with
  | [] => Some acc
  | c :: r =>
      match digit_value c with
      | Some d => parse_digits (acc * 10 + d)%Z r
      | None => None
      end
  end.

(** [strconv.ParseUint(s, 10, 64)]: a non-empty run of digits whose value
    is below 2^64 (underscores are only accepted for base 0).  The
    mathematical value is computed first and range-checked afterwards,
    which accepts and rejects exactly the inputs Go's cut-off test does. *)
Definition ParseUint (s : gostring) : option Z :=
  match s with
  | [] => None
  | _ =>
      match parse_digits 0 s with
      | Some un => if (2 ^ 64 <=? un)%Z then None else Some un
      | None => None
      end
  end.

(** [strconv.ParseInt(s, 10, 64)]; [None] stands for a non-nil error. *)
Definition ParseInt (s : gostring) : option Z :=
  match s with
  | [] => None
  | c :: r =>
      let '(neg, body) :=
        if Ascii.eqb c "+"%char then (false, r)
        else if Ascii.eqb c "-"%char then (true, r)
        else (false, s) in
      match ParseUint body with
      | None => None
      | Some un =>
          if negb neg && (2 ^ 63 <=? un)%Z then None
          else if neg && (2 ^ 63 <? un)%Z then None
          else Some (if neg then - un else un)%Z
      end
  end.

Definition digit_char (d : Z) : ascii := ascii_of_nat (Z.to_nat d + 48).

(** The digit loop of [strconv.FormatInt(u, 10)]: emit [u mod 10] and
    continue with [u / 10] while [u >= 10].  [fuel] bounds the loop. *)
Fixpoint format_digits (fuel : nat) (u : Z) : gostring :=
  match fuel with
  | O => [digit_char u]
  | S f =>
      if (u <? 10)%Z then [digit_char u]
      else format_digits f (u / 10) ++ [digit_char (u mod 10)]
  end.

Definition digit_fuel (u : Z) : nat := Z.to_nat (Z.log2 u + 1).

(** [strconv.FormatInt(k, 10)]. *)
Definition FormatInt (k : Z) : gostring :=
  if (k <? 0)%Z then "-"%char :: format_digits (digit_fuel (- k)) (- k)
  else format_digits (digit_fuel k) k.

(* ------------------------------------------------------------------ *)
(** ** offsetInfo (cluster.go) *)

Record offsetInfo := {
  Offset : Z;
  PendingOffsets : gomap;
  Metadata : gostring
}.

Definition set_Metadata (i : offsetInfo) (m : gostring) : offsetInfo :=
  {| Offset := Offset i; PendingOffsets := PendingOffsets i; Metadata := m |}.
Definition set_PendingOffsets (i : offsetInfo) (pm : gomap) : offsetInfo :=
  {| Offset := Offset i; PendingOffsets := pm; Metadata := Metadata i |}.
Definition set_Offset (i : offsetInfo) (o : Z) : offsetInfo :=
  {| Offset := o; PendingOffsets := PendingOffsets i; Metadata := Metadata i |}.

(** [meta += strconv.FormatInt(k, 10) + ","] for each key, in [ord]. *)
Definition serialize_keys (ord : list Z) : gostring :=
  fold_left (fun meta k => meta ++ FormatInt k ++ [comma]) ord [].

(** [func (i offsetInfo) Serialize() offsetInfo]; [ord] is the order of
    the range loop over [i.PendingOffsets]. *)
Definition Serialize (i : offsetInfo) (ord : list Z) : offsetInfo :=
  set_Metadata i (serialize_keys ord).

(** The loop of [Deserialize] over the parts of the metadata. *)
Fixpoint deserialize_parts (pm : gomap) (parts : list gostring)
    : outcome gomap :=
  match parts with
  | [] => Ret pm
  | k :: ks =>
      match k with
      | [] => deserialize_parts pm ks                 (* k == "" *)
      | _ =>
          match ParseInt k with
          | None => deserialize_parts pm ks           (* err != nil *)
          | Some offset =>
              match pm with
              | None => Panic NilMapWrite
              | Some m => deserialize_parts (Some ({[offset]} ∪ m)) ks
              end
          end
      end
  end.

(** [func (i offsetInfo) Deserialize() offsetInfo]. *)
Definition Deserialize (i : offsetInfo) : outcome offsetInfo :=
  pm <- deserialize_parts (PendingOffsets i) (split_comma (Metadata i)) ;;
  Ret (set_PendingOffsets i pm).

(** [func (i offsetInfo) NextOffset(fallback int64) int64]; [ord] is the
    order of the range loop, whose first key is returned. *)
Definition NextOffset (i : offsetInfo) (ord : list Z) (fallback : Z) : Z :=
  if (-1 <? Offset i)%Z then
    if (0 <? map_len (PendingOffsets i))%nat then
      match ord with
      | k :: _ => k
      | [] => Offset i
      end
    else Offset i
  else fallback.

(** Test inputs. *)
Definition gs (s : string) : gostring := list_ascii_of_string s.

(* ------------------------------------------------------------------ *)
(** ** partitionConsumer (partition-consumer file) *)

(** The [sarama.PartitionConsumer] stream handle, as far as the code uses
    it: the result its [Close] reports, whether it was closed, and the
    cursor [SetOffset] moves. *)
Record pcmHandle := {
  pcm_close_result : error;
  pcm_closed : bool;
  pcm_cursor : Z
}.

Record partitionState := {
  Info : offsetInfo;
  Dirty : bool
}.

Record partitionConsumer := {
  pcm : pcmHandle;
  state : partitionState;
  closed : bool;
  dying_closed : bool     (* close(c.dying) has run *)
}.

(** A [*partitionConsumer]: [None] is the nil pointer. *)
Abbreviation handle := (option partitionConsumer).

Definition with_state (c : partitionConsumer) (st : partitionState)
    : partitionConsumer :=
  {| pcm := pcm c; state := st; closed := closed c;
     dying_closed := dying_closed c |}.
Definition with_info (st : partitionState) (i : offsetInfo) : partitionState :=
  {| Info := i; Dirty := Dirty st |}.
Definition with_dirty (st : partitionState) (d : bool) : partitionState :=
  {| Info := Info st; Dirty := d |}.

(** The zero values [offsetInfo{}] and [partitionState{}]. *)
Definition zero_info : offsetInfo :=
  {| Offset := 0; PendingOffsets := None; Metadata := [] |}.
Definition zero_state : partitionState := {| Info := zero_info; Dirty := false |}.

(** The provider [manager.ConsumePartition(topic, partition, offset)]. *)
Abbreviation consumer_manager := (gostring -> Z -> Z -> pcmHandle + goerror).

(** [newPartitionConsumer(manager, topic, partition, info, defaultOffset)];
    [ord] is the range order seen by [info.NextOffset]. *)
Definition newPartitionConsumer (manager : consumer_manager) (topic : gostring)
    (partition : Z) (info : offsetInfo) (ord : list Z) (defaultOffset : Z)
    : partitionConsumer + goerror :=
  let build pcm0 info0 :=
    {| pcm := pcm0; state := {| Info := info0; Dirty := false |};
       closed := false; dying_closed := false |} in
  match manager topic partition (NextOffset info ord defaultOffset) with
  | inl pcm0 => inl (build pcm0 info)
  | inr ErrOffsetOutOfRange =>
      (* resume from default offset, if requested offset is out-of-range *)
      match manager topic partition defaultOffset with
      | inl pcm0 => inl (build pcm0 (set_Offset info (-1)))
      | inr err => inr err
      end
  | inr err => inr err
  end.

(** What a call of [Close] does besides returning: close the stream,
    close [c.dying], and block on [<-c.dead] until [Loop] has exited. *)
Inductive close_event := EvStreamClose | EvSignalDying | EvAwaitDead.

(** [func (c *partitionConsumer) Close() error]: the returned error, the
    consumer afterwards, and the events of the call. *)
Definition Close (c : partitionConsumer)
    : error * partitionConsumer * list close_event :=
  if closed c then (None, c, [])
  else
    let err := pcm_close_result (pcm c) in
    let pcm' := {| pcm_close_result := pcm_close_result (pcm c);
                   pcm_closed := true; pcm_cursor := pcm_cursor (pcm c) |} in
    (err, {| pcm := pcm'; state := state c; closed := true;
             dying_closed := true |},
     [EvStreamClose; EvSignalDying; EvAwaitDead]).

(** [func (c *partitionConsumer) State() partitionState]; [ord] is the
    range order of [Serialize]. *)
Definition State (ord : list Z) (h : handle) : outcome partitionState :=
  match h with
  | None => Ret zero_state
  | Some c =>
      let st := state c in
      match Metadata (Info st) with
      | [] => Ret (with_info st (Serialize (Info st) ord))
      | _ :: _ =>
          if (map_len (PendingOffsets (Info st)) =? 0)%nat then
            i' <- Deserialize (Info st) ;; Ret (with_info st i')
          else Ret st
      end
  end.

(** [func (c *partitionConsumer) MarkCommitted(offset int64)]. *)
Definition MarkCommitted (h : handle) (offset : Z) : outcome handle :=
  match h with
  | None => Ret None
  | Some c =>
      let st := state c in
      if (offset =? Offset (Info st))%Z
         || negb (match Metadata (Info st) with [] => true | _ => false end)
      then Ret (Some (with_state c (with_dirty st false)))
      else Ret (Some c)
  end.

(** [func (c *partitionConsumer) AddPendingOffset(offset int64)]. *)
Definition AddPendingOffset (h : handle) (offset : Z) : outcome handle :=
  match h with
  | None => Panic NilPointerDeref
  | Some c =>
      let st := state c in
      match PendingOffsets (Info st) with
      | None => Panic NilMapWrite
      | Some m =>
          Ret (Some (with_state c
                 (with_info st (set_PendingOffsets (Info st)
                                  (Some ({[offset]} ∪ m))))))
      end
  end.

(** [func (c *partitionConsumer) SetOffset(offset int64)]. *)
Definition SetOffset (h : handle) (offset : Z) : outcome handle :=
  match h with
  | None => Panic NilPointerDeref
  | Some c =>
      Ret (Some {| pcm := {| pcm_close_result := pcm_close_result (pcm c);
                             pcm_closed := pcm_closed (pcm c);
                             pcm_cursor := offset |};
                   state := state c; closed := closed c;
                   dying_closed := dying_closed c |})
  end.

(** [func (c *partitionConsumer) RemovePendingOffset(offset int64)];
    [delete] on a nil map does nothing. *)
Definition RemovePendingOffset (h : handle) (offset : Z) : outcome handle :=
  match h with
  | None => Panic NilPointerDeref
  | Some c =>
      let st := state c in
      match PendingOffsets (Info st) with
      | None => Ret (Some c)
      | Some m =>
          Ret (Some (with_state c
                 (with_info st (set_PendingOffsets (Info st)
                                  (Some (m ∖ {[offset]}))))))
      end
  end.

(** [func (c *partitionConsumer) MarkOffset(offset int64, metadata string)]. *)
Definition MarkOffset (h : handle) (offset : Z) (metadata : gostring)
    : outcome handle :=
  match h with
  | None => Ret None
  | Some c =>
      let st := state c in
      if (Offset (Info st) <? offset)%Z then
        let i1 := set_Offset (Info st) offset in
        (* only commit metadata if it's a valid string *)
        let i2 := match metadata with
                  | [] => i1
                  | _ :: _ => set_Metadata i1 metadata
                  end in
        Ret (Some (with_state c {| Info := i2; Dirty := true |}))
      else Ret (Some c)
  end.

(** [n] successive calls of [Close] on the same consumer: the error and
    the events of each call. *)
Fixpoint close_calls (n : nat) (c : partitionConsumer)
    : list (error * list close_event) :=
  match n with
  | O => []
  | S n' => let '(e, c', ev) := Close c in (e, ev) :: close_calls n' c'
  end.

(* ------------------------------------------------------------------ *)
(** ** int32Slice.Diff (cluster.go) *)

(** The loop of [sort.Search(n, f)]: [h := (i+j)/2], move [i] past [h]
    when [f h] is false, else move [j] to [h].  Every round shrinks
    [j - i], so fuel [n] is never exhausted. *)
Fixpoint search_loop (fuel : nat) (f : nat -> bool) (i j : nat) : nat :=
  match fuel with
  | O => i
  | S fu =>
      if (i <? j)%nat then
        let h := ((i + j) / 2)%nat in
        if f h then search_loop fu f i h else search_loop fu f (S h) j
      else i
  end.

Definition Search (n : nat) (f : nat -> bool) : nat := search_loop n f 0 n.

(** [func (p int32Slice) Diff(o int32Slice) (res []int32)]. *)
Fixpoint Diff (p o : list Z) : list Z :=
  match p with
  | [] => []
  | x :: xs =>
      let on := length o in
      let n := Search on (fun i => (x <=? nth i o 0)%Z) in
      if (n <? on)%nat && (nth n o 0 =? x)%Z then Diff xs o
      else x :: Diff xs o
  end.

(** A caller marking several offsets in turn on one consumer. *)
Fixpoint mark_offsets (h : handle) (marks : list (Z * gostring)) : outcome handle :=
  match marks with
  | [] => Ret h
  | (offset, metadata) :: rest => h' <- MarkOffset h offset metadata ;; mark_offsets h' rest
  end.

(* ------------------------------------------------------------------ *)
(** ** The forwarding loop [partitionConsumer.Loop] *)

(** [Loop] runs concurrently with the stream and with [Close].  A run is
    modelled by a schedule of events: what the loop's [select] statements
    pick, and what the other parties do meanwhile.
    - [PickMsg true]: the outer select receives from [pcm.Messages()]
      and the inner select sends the message on [messages];
      [PickMsg false]: the inner select picks [<-c.dying] instead;
    - [PickErr b]: the same for [pcm.Errors()] and [errors];
    - [PickDying]: the outer select picks [<-c.dying];
    - [ArriveMsg m], [ArriveErr e]: the stream sends on its channels;
    - [CloseMsgs], [CloseErrs]: the stream closes its channels;
    - [SignalDying]: [Close] runs [close(c.dying)].
    An event is only possible when Go allows it: a receive needs a queued
    value or a closed channel, [<-c.dying] needs [dying] closed, nothing
    is sent on or closed twice a closed channel. *)
Inductive loop_event (message : Type) :=
| PickMsg (deliver : bool)
| PickErr (deliver : bool)
| PickDying
| ArriveMsg (m : message)
| ArriveErr (e : goerror)
| CloseMsgs
| CloseErrs
| SignalDying.
Arguments PickMsg {message} deliver.
Arguments PickErr {message} deliver.
Arguments PickDying {message}.
Arguments ArriveMsg {message} m.
Arguments ArriveErr {message} e.
Arguments CloseMsgs {message}.
Arguments CloseErrs {message}.
Arguments SignalDying {message}.

Section ForwardLoop.
Variable message : Type.

Record loop_state := {
  produced : list message;     (* everything the stream sent on Messages() *)
  in_msgs : list message;      (* queued on pcm.Messages(), not yet received *)
  msgs_open : bool;
  in_errs : list goerror;      (* queued on pcm.Errors() *)
  errs_open : bool;
  dying_sig : bool;            (* c.dying has been closed *)
  out_msgs : list message;     (* sent on the shared messages channel *)
  out_errs : list goerror;     (* sent on the shared errors channel *)
  dead_sig : bool              (* Loop returned: defer close(c.dead) ran *)
}.

Definition mk_loop_state pr im mo ie eo dy om oe dd : loop_state :=
  {| produced := pr; in_msgs := im; msgs_open := mo; in_errs := ie;
     errs_open := eo; dying_sig := dy; out_msgs := om; out_errs := oe;
     dead_sig := dd |}.

(** One event, or [None] when the event is not possible in [s]. *)
Definition loop_step (s : loop_state) (ev : loop_event message)
    : option loop_state :=
  let '{| produced := pr; in_msgs := im; msgs_open := mo; in_errs := ie;
          errs_open := eo; dying_sig := dy; out_msgs := om; out_errs := oe;
          dead_sig := dd |} := s in
  match ev with
  | ArriveMsg m =>
      if mo then Some (mk_loop_state (pr ++ [m]) (im ++ [m]) mo ie eo dy om oe dd)
      else None
  | ArriveErr e =>
      if eo then Some (mk_loop_state pr im mo (ie ++ [e]) eo dy om oe dd) else None
  | CloseMsgs =>
      if mo then Some (mk_loop_state pr im false ie eo dy om oe dd) else None
  | CloseErrs =>
      if eo then Some (mk_loop_state pr im mo ie false dy om oe dd) else None
  | SignalDying =>
      if dy then None else Some (mk_loop_state pr im mo ie eo true om oe dd)
  | PickMsg deliver =>
      if dd then None else
      match im with
      | [] => if mo then None                                   (* blocks *)
              else Some (mk_loop_state pr im mo ie eo dy om oe true)   (* !ok *)
      | m :: rest =>
          if deliver then Some (mk_loop_state pr rest mo ie eo dy (om ++ [m]) oe dd)
          else if dy then Some (mk_loop_state pr rest mo ie eo dy om oe true)
          else None
      end
  | PickErr deliver =>
      if dd then None else
      match ie with
      | [] => if eo then None
              else Some (mk_loop_state pr im mo ie eo dy om oe true)
      | e :: rest =>
          if deliver then Some (mk_loop_state pr im mo rest eo dy om (oe ++ [e]) dd)
          else if dy then Some (mk_loop_state pr im mo rest eo dy om oe true)
          else None
      end
  | PickDying =>
      if dd then None
      else if dy then Some (mk_loop_state pr im mo ie eo dy om oe true) else None
  end.

Fixpoint loop_run (s : loop_state) (sched : list (loop_event message))
    : option loop_state :=
  match sched with
  | [] => Some s
  | ev :: evs => match loop_step s ev with Some s' => loop_run s' evs | None => None end
  end.

(** The loop as it starts: fresh channels, nothing sent yet. *)
Definition loop_start : loop_state :=
  mk_loop_state [] [] true [] true false [] [] false.

End ForwardLoop.
Arguments loop_step {message} s ev.
Arguments loop_run {message} s sched.
Arguments loop_start {message}.
Arguments mk_loop_state {message}.
Arguments produced {message} _.
Arguments in_msgs {message} _.
Arguments msgs_open {message} _.
Arguments in_errs {message} _.
Arguments errs_open {message} _.
Arguments dying_sig {message} _.
Arguments out_msgs {message} _.
Arguments out_errs {message} _.
Arguments dead_sig {message} _.

(* ------------------------------------------------------------------ *)
(** ** partitionMap *)

Abbreviation topicPartition := (gostring * Z)%type.

(** [partitionMap.data]; the reader/writer lock only serialises calls,
    so each method is a function of the map. *)
Abbreviation partitionMap := (gmap topicPartition handle).

(** [for tp, pc := range m.data] visits the entries in an order the
    runtime picks; [ents] is that order. *)
Definition range_entries (m : partitionMap) (ents : list (topicPartition * handle))
    : Prop :=
  ents ≡ₚ map_to_list m.

(** The methods of [*partitionMap]. *)
Module PartitionMap.

Definition newPartitionMap : partitionMap := ∅.

(** [func (m *partitionMap) Fetch(topic, partition) *partitionConsumer]:
    a missing key gives the nil pointer. *)
Definition Fetch (m : partitionMap) (topic : gostring) (partition : Z) : handle :=
  match m !! (topic, partition) with Some pc => pc | None => None end.

(** [func (m *partitionMap) Store(topic, partition, pc)]. *)
Definition Store (m : partitionMap) (topic : gostring) (partition : Z) (pc : handle)
    : partitionMap :=
  <[(topic, partition) := pc]> m.

(** [func (m *partitionMap) HasDirty() bool]; [sord tp] is the range
    order [State] uses inside the consumer stored at [tp]. *)
Fixpoint HasDirty (ents : list (topicPartition * handle))
    (sord : topicPartition -> list Z) : outcome bool :=
  match ents with
  | [] => Ret false
  | (tp, pc) :: rest =>
      st <- State (sord tp) pc ;;
      if Dirty st then Ret true else HasDirty rest sord
  end.

Fixpoint snapshot_loop (ents : list (topicPartition * handle))
    (sord : topicPartition -> list Z) (snap : gmap topicPartition partitionState)
    : outcome (gmap topicPartition partitionState) :=
  match ents with
  | [] => Ret snap
  | (tp, pc) :: rest =>
      st <- State (sord tp) pc ;; snapshot_loop rest sord (<[tp := st]> snap)
  end.

(** [func (m *partitionMap) Snapshot() map[topicPartition]partitionState]. *)
Definition Snapshot (ents : list (topicPartition * handle))
    (sord : topicPartition -> list Z) : outcome (gmap topicPartition partitionState) :=
  snapshot_loop ents sord ∅.

(** [func (m *partitionMap) Stop()]: one goroutine per entry runs
    [p.Close()] and [wg.Wait()] joins them.  Each goroutine touches only
    its own consumer, so running them one after another gives the same
    consumers; a nil entry makes its goroutine dereference nil. *)
Fixpoint Stop (ents : list (topicPartition * handle)) (m : partitionMap)
    : outcome partitionMap :=
  match ents with
  | [] => Ret m
  | (tp, pc) :: rest =>
      match pc with
      | None => Panic NilPointerDeref
      | Some c => Stop rest (<[tp := Some (Close c).1.2]> m)
      end
  end.

(** [func (m *partitionMap) Clear()]: [delete(m.data, tp)] for every key. *)
Fixpoint Clear (ents : list (topicPartition * handle)) (m : partitionMap)
    : partitionMap :=
  match ents with
  | [] => m
  | (tp, _) :: rest => Clear rest (delete tp m)
  end.

(** [sort.Sort(int32Slice(l))]: on integers the result is the unique
    ascending permutation, whichever algorithm the library runs. *)
Definition sort_int32 (l : list Z) : list Z := merge_sort (≤)%Z l.

Fixpoint info_loop (ents : list (topicPartition * handle))
    (info : gmap gostring (list Z)) : gmap gostring (list Z) :=
  match ents with
  | [] => info
  | ((topic, partition), _) :: rest =>
      info_loop rest (<[topic := default [] (info !! topic) ++ [partition]]> info)
  end.

(** [func (m *partitionMap) Info() map[string][]int32]. *)
Definition Info (ents : list (topicPartition * handle)) : gmap gostring (list Z) :=
  sort_int32 <$> info_loop ents ∅.

End PartitionMap.

(** The partitions of [topic] among [ents], in the order listed; what
    [Info]'s append loop collects for [topic]. *)
Fixpoint topic_parts (topic : gostring) (ents : list (topicPartition * handle))
    : list Z :=
  match ents with
  | [] => []
  | ((t, partition), _) :: rest =>
      if decide (t = topic) then partition :: topic_parts topic rest
      else topic_parts topic rest
  end.

(* ------------------------------------------------------------------ *)
(** ** Test inputs *)

(** A ledger with no confirmed offset but one pending offset. *)
Definition ledger_unconfirmed : offsetInfo :=
  {| Offset := -1; PendingOffsets := Some {[5%Z]}; Metadata := [] |}.

Definition ledger_confirmed : offsetInfo :=
  {| Offset := 3; PendingOffsets := Some {[5%Z; 7%Z]}; Metadata := [] |}.

Definition ledger_empty_pending : offsetInfo :=
  {| Offset := 4; PendingOffsets := Some ∅; Metadata := [] |}.

(** An open consumer whose stream reports an error on close. *)
Definition consumer_close_fails : partitionConsumer :=
  {| pcm := {| pcm_close_result := Some (ErrOther (gs "broker gone"%string));
               pcm_closed := false; pcm_cursor := 0 |};
     state := zero_state; closed := false; dying_closed := false |}.

(** A recovered ledger with metadata "7," but a nil pending map. *)
Definition ledger_nil_map : offsetInfo :=
  {| Offset := 3; PendingOffsets := None; Metadata := gs "7,"%string |}.

Definition always_ok : consumer_manager :=
  fun _ _ o => inl {| pcm_close_result := None; pcm_closed := false; pcm_cursor := o |}.

Definition consumer_nil_map : partitionConsumer :=
  {| pcm := {| pcm_close_result := None; pcm_closed := false; pcm_cursor := 3 |};
     state := {| Info := ledger_nil_map; Dirty := false |};
     closed := false; dying_closed := false |}.

Definition consumer_at (o : Z) (meta : gostring) (dirty : bool) : partitionConsumer :=
  {| pcm := {| pcm_close_result := None; pcm_closed := false; pcm_cursor := 0 |};
     state := {| Info := {| Offset := o; PendingOffsets := Some ∅; Metadata := meta |};
                 Dirty := dirty |};
     closed := false; dying_closed := false |}.

Definition consumer_pending5 : partitionConsumer :=
  {| pcm := {| pcm_close_result := None; pcm_closed := false; pcm_cursor := 0 |};
     state := {| Info := {| Offset := 2; PendingOffsets := Some {[5%Z]}; Metadata := [] |};
                 Dirty := true |};
     closed := false; dying_closed := false |}.

Definition state_pending5 : partitionState :=
  {| Info := {| Offset := 2; PendingOffsets := Some {[5%Z]}; Metadata := gs "5,"%string |};
     Dirty := true |}.

Definition manager_retained_from (low : Z) : consumer_manager :=
  fun _ _ o =>
    if (o <? low)%Z then inr ErrOffsetOutOfRange
    else inl {| pcm_close_result := None; pcm_closed := false; pcm_cursor := o |}.

Definition ledger_pending_357 : offsetInfo :=
  {| Offset := 2; PendingOffsets := Some {[3%Z; 5%Z; 7%Z]}; Metadata := [] |}.

(** A registry: two consumers of topic "a" (one dirty) and a nil
    entry for topic "b". *)
Definition reg_sample : partitionMap :=
  <[(gs "a"%string, 1%Z) := Some (consumer_at 5 [] false)]>
  (<[(gs "a"%string, 0%Z) := Some (consumer_at 3 [] true)]>
  (<[(gs "b"%string, 2%Z) := None]> ∅)).

(** The same registry without its nil entry. *)
Definition reg_clean : partitionMap := delete (gs "b"%string, 2%Z) reg_sample.

(* ------------------------------------------------------------------ *)
(** ** Sample evaluations *)

Example split_ex : split_comma (gs "1,2,"%string) = [gs "1"%string; gs "2"%string; []].
Proof. reflexivity. Qed.
Example parse_ex : map ParseInt [gs "12"%string; gs "-7"%string; gs "+3"%string; gs "x"%string; gs "-"%string; gs "9223372036854775808"%string; gs "-9223372036854775808"%string]
  = [Some 12%Z; Some (-7)%Z; Some 3%Z; None; None; None; Some (-9223372036854775808)%Z].
Proof. vm_compute. reflexivity. Qed.
Example format_ex : map FormatInt [0; 7; 10; 1234; -56]%Z = [gs "0"%string; gs "7"%string; gs "10"%string; gs "1234"%string; gs "-56"%string].
Proof. vm_compute. reflexivity. Qed.
Example deserialize_malformed_ex :
  Deserialize {| Offset := 0; PendingOffsets := Some ∅; Metadata := gs "1,x,3,"%string |}
  = Ret {| Offset := 0; PendingOffsets := Some {[1%Z; 3%Z]}; Metadata := gs "1,x,3,"%string |}.
Proof. vm_compute. reflexivity. Qed.
Example diff_ex : Diff [0;1;2;3;4;5]%Z [1;3;5]%Z = [0;2;4]%Z.
Proof. reflexivity. Qed.


(* ------------------------------------------------------------------ *)
(** ** NextOffset *)

Lemma range_order_nonempty (pm : gomap) (ord : list Z) :
  range_order pm ord -> (0 < map_len pm)%nat ->
  exists k rest, ord = k :: rest /\ k ∈ map_keys pm.
Proof.
  unfold range_order, map_len. intros Hp Hlen.
  destruct ord as [|k rest].
  - apply Permutation_length in Hp. simpl in Hp.
    unfold size, set_size in Hlen. simpl in Hlen. lia.
  - exists k, rest. split; [reflexivity|].
    apply elem_of_elements. rewrite <- Hp. left.
Qed.

(** C1 (counterexample): a non-empty pending set does not make
    [NextOffset f] a pending member: with confirmed offset -1 and pending
    set {5}, [NextOffset 0] is the fallback 0. *)
Lemma C1_next_offset_member_cex :
  ~ (forall (i : offsetInfo) (ord : list Z) (f : Z),
       range_order (PendingOffsets i) ord ->
       (0 < map_len (PendingOffsets i))%nat ->
       NextOffset i ord f ∈ map_keys (PendingOffsets i)).
Proof.
  intros H.
  specialize (H ledger_unconfirmed [5%Z] 0%Z).
  assert (Hord : range_order (PendingOffsets ledger_unconfirmed) [5%Z]).
  { unfold range_order. simpl. rewrite elements_singleton. reflexivity. }
  assert (Hlen : (0 < map_len (PendingOffsets ledger_unconfirmed))%nat).
  { vm_compute. lia. }
  specialize (H Hord Hlen). simpl in H.
  apply elem_of_singleton in H. discriminate.
Qed.

Lemma next_offset_member (i : offsetInfo) (ord : list Z) (f : Z) :
  range_order (PendingOffsets i) ord ->
  (0 < map_len (PendingOffsets i))%nat ->
  (-1 < Offset i)%Z ->
  NextOffset i ord f ∈ map_keys (PendingOffsets i).
Proof.
  intros Hord Hlen Hoff.
  destruct (range_order_nonempty _ _ Hord Hlen) as (k & rest & -> & Hk).
  unfold NextOffset.
  destruct (Z.ltb_spec (-1) (Offset i)); [|lia].
  destruct (Nat.ltb_spec 0 (map_len (PendingOffsets i))); [|lia].
  exact Hk.
Qed.

(** C1 (amended): for every ledger whose confirmed offset is above -1
    and whose pending set is non-empty, [NextOffset f] is a member of the
    pending set, whatever the fallback and whatever range order the
    runtime picks; when the confirmed offset is -1 or lower,
    [NextOffset f] is the fallback [f], even with offsets pending. *)
Theorem C1_next_offset_member (i : offsetInfo) (ord : list Z) (f : Z) :
  (range_order (PendingOffsets i) ord ->
   (0 < map_len (PendingOffsets i))%nat ->
   (-1 < Offset i)%Z ->
   NextOffset i ord f ∈ map_keys (PendingOffsets i)) /\
  ((Offset i <= -1)%Z -> NextOffset i ord f = f).
Proof.
  split.
  - apply next_offset_member.
  - intros Hoff. unfold NextOffset.
    destruct (Z.ltb_spec (-1) (Offset i)); [lia|reflexivity].
Qed.

Lemma C1_next_offset_member_witness :
  NextOffset ledger_confirmed (elements (map_keys (PendingOffsets ledger_confirmed))) 0
    ∈ map_keys (PendingOffsets ledger_confirmed) /\
  (0 < map_len (PendingOffsets ledger_unconfirmed))%nat /\
  NextOffset ledger_unconfirmed [5%Z] 0 = 0%Z.
Proof.
  split; [|split].
  - apply (proj1 (C1_next_offset_member ledger_confirmed
                    (elements (map_keys (PendingOffsets ledger_confirmed))) 0)).
    + unfold range_order. reflexivity.
    + vm_compute. lia.
    + simpl. lia.
  - vm_compute. lia.
  - apply (proj2 (C1_next_offset_member ledger_unconfirmed [5%Z] 0)).
    simpl. lia.
Defined.

(** C2: the selection rule of [NextOffset]: above -1, a pending member
    if there is one and the confirmed offset otherwise; at -1 the
    fallback.  In particular [NextOffset f = f] for offset -1 and no
    pending offsets, and [NextOffset f = offset] for every [f] when the
    offset is at least 0 and nothing is pending. *)
Theorem C2_next_offset_rule (i : offsetInfo) (ord : list Z) :
  range_order (PendingOffsets i) ord ->
  (forall f, (-1 < Offset i)%Z -> (0 < map_len (PendingOffsets i))%nat ->
     NextOffset i ord f ∈ map_keys (PendingOffsets i)) /\
  (forall f, (-1 < Offset i)%Z -> map_len (PendingOffsets i) = 0%nat ->
     NextOffset i ord f = Offset i) /\
  (forall f, Offset i = (-1)%Z -> NextOffset i ord f = f) /\
  (forall f, Offset i = (-1)%Z -> map_len (PendingOffsets i) = 0%nat ->
     NextOffset i ord f = f) /\
  (forall f f', (0 <= Offset i)%Z -> map_len (PendingOffsets i) = 0%nat ->
     NextOffset i ord f = Offset i /\ NextOffset i ord f = NextOffset i ord f').
Proof.
  intros Hord.
  assert (Hempty : forall f, (-1 < Offset i)%Z ->
            map_len (PendingOffsets i) = 0%nat -> NextOffset i ord f = Offset i).
  { intros f Hoff Hlen. unfold NextOffset. rewrite Hlen.
    destruct (Z.ltb_spec (-1) (Offset i)); [reflexivity|lia]. }
  assert (Hfb : forall f, Offset i = (-1)%Z -> NextOffset i ord f = f).
  { intros f Hoff. unfold NextOffset. rewrite Hoff. reflexivity. }
  split; [|split; [exact Hempty|split; [exact Hfb|split]]].
  - intros f Hoff Hlen. now apply next_offset_member.
  - intros f Hoff _. now apply Hfb.
  - intros f f' Hoff Hlen.
    rewrite !Hempty by lia. split; reflexivity.
Qed.

Lemma C2_next_offset_rule_witness :
  NextOffset ledger_empty_pending [] 0 = 4%Z /\
  NextOffset ledger_empty_pending [] 0 = NextOffset ledger_empty_pending [] 9.
Proof.
  assert (Hord : range_order (PendingOffsets ledger_empty_pending) []).
  { unfold range_order. simpl. rewrite elements_empty. reflexivity. }
  destruct (C2_next_offset_rule ledger_empty_pending [] Hord)
    as (_ & _ & _ & _ & H).
  apply (H 0%Z 9%Z).
  - simpl. lia.
  - vm_compute. reflexivity.
Defined.

(* ------------------------------------------------------------------ *)
(** ** Close *)

Lemma Close_closed (c : partitionConsumer) :
  closed c = true -> Close c = (None, c, []).
Proof. intros H. unfold Close. now rewrite H. Qed.

Lemma close_calls_closed (n : nat) (c : partitionConsumer) :
  closed c = true -> close_calls n c = repeat (None, []) n.
Proof.
  intros H. induction n as [|n IH]; simpl; [reflexivity|].
  rewrite (Close_closed c H). now rewrite IH.
Qed.

(** C3 (counterexample): a second [Close] does not return the result of
    the first: when the stream's close fails, the first call returns that
    error and the second returns nil. *)
Lemma C3_close_idempotent_cex :
  close_calls 2 consumer_close_fails =
    [(Some (ErrOther (gs "broker gone"%string)),
      [EvStreamClose; EvSignalDying; EvAwaitDead]); (None, [])] /\
  ~ (forall c : partitionConsumer,
       match close_calls 2 c with
       | [(e1, _); (e2, _)] => e1 = e2
       | _ => False
       end).
Proof.
  split; [reflexivity|].
  intros H. specialize (H consumer_close_fails). simpl in H. discriminate.
Qed.

(** C3 (amended): the first [Close] of an open consumer returns the
    stream's close error after closing the stream, signalling [dying] and
    waiting for [dead]; every later [Close] returns nil at once, with no
    effect and without waiting.  A consumer already closed answers nil to
    every call. *)
Theorem C3_close_idempotent (c : partitionConsumer) (n : nat) :
  close_calls (S n) c =
    (if closed c then (None, [])
     else (pcm_close_result (pcm c),
           [EvStreamClose; EvSignalDying; EvAwaitDead]))
    :: repeat (None, []) n.
Proof.
  simpl. destruct (closed c) eqn:Hc.
  - rewrite (Close_closed c Hc). f_equal. now apply close_calls_closed.
  - unfold Close. rewrite Hc. f_equal. now apply close_calls_closed.
Qed.

(* ------------------------------------------------------------------ *)
(** ** Methods on a nil consumer *)

(** C4 (code bug): on a nil consumer [State], [MarkOffset] and
    [MarkCommitted] return the zero value or do nothing, but
    [AddPendingOffset], [RemovePendingOffset] and [SetOffset] have no nil
    guard and dereference the nil receiver. *)
Theorem C4_nil_consumer_methods (ord : list Z) (offset : Z) (metadata : gostring) :
  State ord None = Ret zero_state /\
  MarkOffset None offset metadata = Ret None /\
  MarkCommitted None offset = Ret None /\
  AddPendingOffset None offset = Panic NilPointerDeref /\
  RemovePendingOffset None offset = Panic NilPointerDeref /\
  SetOffset None offset = Panic NilPointerDeref.
Proof. repeat split. Qed.

(* ------------------------------------------------------------------ *)
(** ** Deserialize on a nil pending map *)

Lemma ParseInt_nil : ParseInt [] = None.
Proof. reflexivity. Qed.

Lemma deserialize_parts_nil_map (parts : list gostring) (tok : gostring) (v : Z) :
  tok ∈ parts -> ParseInt tok = Some v ->
  deserialize_parts None parts = Panic NilMapWrite.
Proof.
  induction parts as [|k ks IH]; intros Hin Hp.
  - apply elem_of_nil in Hin. contradiction.
  - apply elem_of_cons in Hin. simpl.
    destruct Hin as [->|Hin].
    + destruct k as [|c r]; [discriminate|]. now rewrite Hp.
    + destruct k as [|c r]; [now apply IH|].
      destruct (ParseInt (c :: r)); [reflexivity|now apply IH].
Qed.

Lemma split_comma_nonempty_meta (meta tok : gostring) (v : Z) :
  tok ∈ split_comma meta -> ParseInt tok = Some v -> meta <> [].
Proof.
  intros Hin Hp ->. simpl in Hin.
  apply list_elem_of_singleton in Hin. subst. discriminate.
Qed.

Lemma newPartitionConsumer_info (manager : consumer_manager) (topic : gostring)
    (partition : Z) (info : offsetInfo) (ord : list Z) (dflt : Z)
    (c : partitionConsumer) :
  newPartitionConsumer manager topic partition info ord dflt = inl c ->
  PendingOffsets (Info (state c)) = PendingOffsets info /\
  Metadata (Info (state c)) = Metadata info.
Proof.
  unfold newPartitionConsumer.
  destruct (manager topic partition (NextOffset info ord dflt)) as [p|[|msg]];
    [|destruct (manager topic partition dflt)|]; intros H; inversion H; subst;
    simpl; auto.
Qed.

(** C5: [Deserialize] needs an allocated pending map: when the map is nil
    and the metadata has a token [ParseInt] accepts, [Deserialize] writes
    to the nil map and panics, and so does [State] on any consumer that
    [newPartitionConsumer] builds from such a ledger. *)
Theorem C5_deserialize_nil_map (info : offsetInfo) (tok : gostring) (v : Z) :
  PendingOffsets info = None ->
  tok ∈ split_comma (Metadata info) -> ParseInt tok = Some v ->
  Deserialize info = Panic NilMapWrite /\
  (forall (manager : consumer_manager) (topic : gostring) (partition : Z)
          (ord ord' : list Z) (dflt : Z) (c : partitionConsumer),
     newPartitionConsumer manager topic partition info ord dflt = inl c ->
     State ord' (Some c) = Panic NilMapWrite).
Proof.
  intros Hnil Hin Hp.
  assert (Hdes : forall i, PendingOffsets i = None -> Metadata i = Metadata info ->
                   Deserialize i = Panic NilMapWrite).
  { intros i Hi Hm. unfold Deserialize. rewrite Hi, Hm.
    now rewrite (deserialize_parts_nil_map _ tok v Hin Hp). }
  split; [now apply Hdes|].
  intros manager topic partition ord ord' dflt c Hc.
  destruct (newPartitionConsumer_info _ _ _ _ _ _ _ Hc) as [Hpo Hmd].
  pose proof (split_comma_nonempty_meta _ _ _ Hin Hp) as Hne.
  unfold State.
  destruct (Metadata (Info (state c))) as [|ch r] eqn:Hm;
    [exfalso; apply Hne; congruence|].
  rewrite Hpo, Hnil. simpl.
  rewrite (Hdes (Info (state c))); [reflexivity|congruence|congruence].
Qed.

Lemma C5_deserialize_nil_map_witness :
  Deserialize ledger_nil_map = Panic NilMapWrite /\
  newPartitionConsumer always_ok (gs "t"%string) 0 ledger_nil_map [] (-2)
    = inl consumer_nil_map /\
  State [] (Some consumer_nil_map) = Panic NilMapWrite.
Proof.
  destruct (C5_deserialize_nil_map ledger_nil_map (gs "7"%string) 7
              eq_refl (ltac:(vm_compute; left)) eq_refl) as [H1 H2].
  assert (Hc : newPartitionConsumer always_ok (gs "t"%string) 0 ledger_nil_map [] (-2)
                 = inl consumer_nil_map) by reflexivity.
  split; [exact H1|split; [exact Hc|]].
  exact (H2 always_ok _ 0%Z [] [] (-2)%Z consumer_nil_map Hc).
Defined.

(* ------------------------------------------------------------------ *)
(** ** MarkOffset and MarkCommitted *)

(** C6: [MarkOffset offset metadata] moves the confirmed offset to
    [offset], takes [metadata] when it is non-empty and sets [dirty],
    exactly when [offset] is above the confirmed offset; a lower or equal
    offset leaves the whole state (offset, metadata, pending set, dirty)
    as it was.  The stream handle and close flags are never touched. *)
Theorem C6_mark_offset (c : partitionConsumer) (offset : Z) (metadata : gostring) :
  exists c',
    MarkOffset (Some c) offset metadata = Ret (Some c') /\
    pcm c' = pcm c /\ closed c' = closed c /\ dying_closed c' = dying_closed c /\
    ((Offset (Info (state c)) < offset)%Z ->
       Offset (Info (state c')) = offset /\
       PendingOffsets (Info (state c')) = PendingOffsets (Info (state c)) /\
       (metadata <> [] -> Metadata (Info (state c')) = metadata) /\
       (metadata = [] -> Metadata (Info (state c')) = Metadata (Info (state c))) /\
       Dirty (state c') = true) /\
    ((offset <= Offset (Info (state c)))%Z -> state c' = state c).
Proof.
  unfold MarkOffset.
  destruct (Z.ltb_spec (Offset (Info (state c))) offset) as [Hlt|Hge].
  - eexists. split; [reflexivity|]. simpl.
    repeat split; intros; try lia;
      destruct metadata; simpl; congruence.
  - exists c. split; [reflexivity|]. repeat split; intros; try reflexivity; lia.
Qed.

Lemma C6_mark_offset_witness :
  exists c', MarkOffset (Some (consumer_at 5 [] false)) 3 (gs "9,"%string) = Ret (Some c') /\
    state c' = state (consumer_at 5 [] false).
Proof.
  destruct (C6_mark_offset (consumer_at 5 [] false) 3 (gs "9,"%string))
    as (c' & Hm & _ & _ & _ & _ & Hle).
  exists c'. split; [exact Hm|]. apply Hle. simpl. lia.
Defined.

(** C7: [MarkCommitted offset] clears [dirty] when [offset] is the
    confirmed offset or the metadata is non-empty; otherwise it changes
    nothing.  It never changes anything besides [dirty]. *)
Theorem C7_mark_committed (c : partitionConsumer) (offset : Z) :
  exists c',
    MarkCommitted (Some c) offset = Ret (Some c') /\
    pcm c' = pcm c /\ closed c' = closed c /\ dying_closed c' = dying_closed c /\
    Info (state c') = Info (state c) /\
    ((offset = Offset (Info (state c)) \/ Metadata (Info (state c)) <> []) ->
       Dirty (state c') = false) /\
    (offset <> Offset (Info (state c)) -> Metadata (Info (state c)) = [] ->
       c' = c).
Proof.
  unfold MarkCommitted.
  destruct (Z.eqb_spec offset (Offset (Info (state c)))) as [Heq|Hne];
    destruct (Metadata (Info (state c))) as [|ch r] eqn:Hm; simpl.
  - eexists. split; [reflexivity|]. repeat split; reflexivity || congruence.
  - eexists. split; [reflexivity|]. repeat split; reflexivity || congruence.
  - exists c. split; [reflexivity|]. repeat split; try reflexivity.
    + intros [H|H]; contradiction.
  - eexists. split; [reflexivity|]. repeat split; try reflexivity.
    + intros _ H. discriminate.
Qed.

Lemma C7_mark_committed_witness :
  exists c', MarkCommitted (Some (consumer_at 5 (gs "7,"%string) true)) 4 = Ret (Some c') /\
    Dirty (state c') = false.
Proof.
  destruct (C7_mark_committed (consumer_at 5 (gs "7,"%string) true) 4)
    as (c' & Hm & _ & _ & _ & _ & Hclr & _).
  exists c'. split; [exact Hm|]. apply Hclr. right. discriminate.
Defined.

(* ------------------------------------------------------------------ *)
(** ** FormatInt and ParseInt *)

Lemma digit_value_digit_char (d : Z) :
  (0 <= d < 10)%Z -> digit_value (digit_char d) = Some d.
Proof.
  intros Hd.
  assert (d = 0 \/ d = 1 \/ d = 2 \/ d = 3 \/ d = 4 \/ d = 5 \/ d = 6 \/
          d = 7 \/ d = 8 \/ d = 9)%Z as Hcases by lia.
  repeat destruct Hcases as [->|Hcases]; try reflexivity; subst; reflexivity.
Qed.

Lemma parse_digits_app (acc : Z) (l1 l2 : gostring) :
  parse_digits acc (l1 ++ l2) =
  match parse_digits acc l1 with Some a => parse_digits a l2 | None => None end.
Proof.
  revert acc. induction l1 as [|c l1 IH]; intros acc; simpl; [reflexivity|].
  destruct (digit_value c); [apply IH|reflexivity].
Qed.

Lemma format_digits_parse (fuel : nat) (u : Z) :
  (0 <= u < 10 ^ Z.of_nat fuel)%Z ->
  parse_digits 0 (format_digits fuel u) = Some u.
Proof.
  revert u. induction fuel as [|f IH]; intros u Hu.
  - simpl in Hu. assert (u = 0%Z) as -> by lia. reflexivity.
  - simpl. destruct (Z.ltb_spec u 10) as [Hlt|Hge].
    + simpl. rewrite digit_value_digit_char by lia. reflexivity.
    + rewrite parse_digits_app.
      rewrite IH.
      * simpl. rewrite digit_value_digit_char by (apply Z.mod_pos_bound; lia).
        f_equal. pose proof (Z.div_mod u 10). lia.
      * rewrite Nat2Z.inj_succ, Z.pow_succ_r in Hu by lia.
        split; [apply Z.div_pos; lia|].
        apply Z.div_lt_upper_bound; lia.
Qed.

Lemma format_digits_nonempty (fuel : nat) (u : Z) : format_digits fuel u <> [].
Proof.
  destruct fuel as [|f]; simpl; [discriminate|].
  destruct (u <? 10)%Z; [discriminate|].
  intros H. apply app_eq_nil in H. destruct H as [_ H]. discriminate.
Qed.

Lemma digit_fuel_enough (u : Z) :
  (0 <= u)%Z -> (u < 10 ^ Z.of_nat (digit_fuel u))%Z.
Proof.
  intros Hu. unfold digit_fuel.
  rewrite Z2Nat.id by (pose proof (Z.log2_nonneg u); lia).
  destruct (Z.eq_dec u 0%Z) as [->|Hne]; [reflexivity|].
  destruct (Z.log2_spec u) as [_ Hup]; [lia|].
  eapply Z.lt_le_trans; [exact Hup|].
  rewrite <- Z.add_1_r.
  apply Z.pow_le_mono_l. lia.
Qed.

Lemma parse_digits_digits (acc v : Z) (s : gostring) :
  parse_digits acc s = Some v -> Forall (fun c => is_Some (digit_value c)) s.
Proof.
  revert acc. induction s as [|c s IH]; intros acc H; [constructor|].
  simpl in H. destruct (digit_value c) eqn:Hd; [|discriminate].
  constructor; [rewrite Hd; eexists; reflexivity|]. eapply IH. exact H.
Qed.

(** For the non-negative int64 values [Serialize] meets: the decimal
    rendering is a non-empty run of digits that [ParseInt] reads back. *)
Lemma FormatInt_decimal (k : Z) :
  (0 <= k < 2 ^ 63)%Z ->
  parse_digits 0 (FormatInt k) = Some k /\
  Forall (fun c => is_Some (digit_value c)) (FormatInt k) /\
  FormatInt k <> [].
Proof.
  intros Hk. unfold FormatInt.
  destruct (Z.ltb_spec k 0); [lia|].
  pose proof (format_digits_parse (digit_fuel k) k
                (conj (proj1 Hk) (digit_fuel_enough k (proj1 Hk)))) as Hp.
  split; [exact Hp|split; [eapply parse_digits_digits; exact Hp|]].
  apply format_digits_nonempty.
Qed.

Lemma digit_not_sign (c : ascii) :
  is_Some (digit_value c) ->
  Ascii.eqb c "+"%char = false /\ Ascii.eqb c "-"%char = false /\
  Ascii.eqb c comma = false.
Proof.
  intros Hd.
  repeat split; apply Ascii.eqb_neq; intros ->; destruct Hd as [d Hd];
    discriminate.
Qed.

Lemma ParseInt_FormatInt (k : Z) :
  (0 <= k < 2 ^ 63)%Z -> ParseInt (FormatInt k) = Some k.
Proof.
  intros Hk. destruct (FormatInt_decimal k Hk) as (Hp & Hall & Hne).
  destruct (FormatInt k) as [|c r] eqn:Hf; [contradiction|].
  inversion Hall as [|? ? Hc _]; subst.
  destruct (digit_not_sign c Hc) as (Hplus & Hminus & _).
  unfold ParseInt. rewrite Hplus, Hminus.
  unfold ParseUint. rewrite Hp.
  destruct (Z.leb_spec (2 ^ 64) k); [lia|].
  destruct (Z.leb_spec (2 ^ 63) k); [lia|]. reflexivity.
Qed.

(* ------------------------------------------------------------------ *)
(** ** Serialize, Split and Deserialize *)

Lemma serialize_keys_concat (ord : list Z) :
  serialize_keys ord = concat (map (fun k => FormatInt k ++ [comma]) ord).
Proof.
  unfold serialize_keys.
  enough (H : forall acc, fold_left (fun meta k => meta ++ FormatInt k ++ [comma]) ord acc
                = acc ++ concat (map (fun k => FormatInt k ++ [comma]) ord))
    by exact (H []).
  induction ord as [|k ord IH]; intros acc; simpl.
  - now rewrite app_nil_r.
  - rewrite IH. now rewrite !app_assoc.
Qed.

Lemma split_comma_token (t rest : gostring) :
  Forall (fun c => Ascii.eqb c comma = false) t ->
  split_comma (t ++ comma :: rest) = t :: split_comma rest.
Proof.
  induction t as [|c t IH]; intros Ht; [reflexivity|].
  inversion Ht as [|? ? Hc Ht']; subst.
  simpl. rewrite Hc. simpl in IH. rewrite (IH Ht'). reflexivity.
Qed.

Lemma split_serialize_keys (ord : list Z) :
  Forall (fun k => 0 <= k < 2 ^ 63)%Z ord ->
  split_comma (serialize_keys ord) = map FormatInt ord ++ [[]].
Proof.
  rewrite serialize_keys_concat.
  induction ord as [|k ord IH]; intros Hall; [reflexivity|].
  inversion Hall as [|? ? Hk Hall']; subst. simpl.
  rewrite <- app_assoc. simpl.
  rewrite split_comma_token.
  - now rewrite IH.
  - destruct (FormatInt_decimal k Hk) as (_ & Hd & _).
    eapply Forall_impl; [exact Hd|]. intros c Hc. now apply digit_not_sign.
Qed.

(** On an allocated map, [Deserialize]'s loop adds the value of every part
    [ParseInt] accepts and skips the others. *)
Lemma deserialize_parts_alloc (m : gset Z) (parts : list gostring) :
  deserialize_parts (Some m) parts =
  Ret (Some (m ∪ list_to_set (omap ParseInt parts))).
Proof.
  revert m. induction parts as [|k ks IH]; intros m; simpl.
  - f_equal. f_equal. set_solver.
  - destruct k as [|c r].
    + rewrite IH. reflexivity.
    + destruct (ParseInt (c :: r)) as [v|] eqn:Hp; simpl.
      * rewrite IH. f_equal. f_equal. set_solver.
      * apply IH.
Qed.

Lemma omap_ParseInt_serialized (ord : list Z) :
  Forall (fun k => 0 <= k < 2 ^ 63)%Z ord ->
  omap ParseInt (map FormatInt ord ++ [[]]) = ord.
Proof.
  induction ord as [|k ord IH]; intros Hall; [reflexivity|].
  inversion Hall as [|? ? Hk Hall']; subst. simpl.
  rewrite ParseInt_FormatInt by exact Hk. f_equal. exact (IH Hall').
Qed.

(** C9: on a ledger with an allocated pending map, [Deserialize] never
    fails, whatever the metadata: every part [ParseInt] rejects is
    dropped and the values of the accepted parts are added.  Starting
    from an empty pending set the result holds exactly the valid tokens. *)
Theorem C9_deserialize_drops_malformed (o : Z) (m : gset Z) (meta : gostring) :
  exists m',
    Deserialize {| Offset := o; PendingOffsets := Some m; Metadata := meta |}
      = Ret {| Offset := o; PendingOffsets := Some m'; Metadata := meta |} /\
    (forall x, x ∈ m' <->
       x ∈ m \/ exists tok, tok ∈ split_comma meta /\ ParseInt tok = Some x).
Proof.
  eexists. split.
  - unfold Deserialize. simpl. rewrite deserialize_parts_alloc. reflexivity.
  - intros x. rewrite elem_of_union, elem_of_list_to_set, list_elem_of_omap.
    reflexivity.
Qed.

(** C8: [Serialize] writes each pending offset in decimal followed by one
    ",", in the runtime's range order (the empty set gives the empty
    string); the string splits into those decimal tokens plus a final
    empty part; and [Deserialize] of it on a fresh ledger (empty
    allocated pending map) gives back exactly the original set, for
    every set of non-negative int64 offsets and every range order. *)
Theorem C8_serialize_roundtrip (i : offsetInfo) (s : gset Z) (ord : list Z) :
  PendingOffsets i = Some s ->
  (forall k, k ∈ s -> 0 <= k < 2 ^ 63)%Z ->
  range_order (Some s) ord ->
  Metadata (Serialize i ord) = concat (map (fun k => FormatInt k ++ [comma]) ord) /\
  (s = ∅ -> Metadata (Serialize i ord) = []) /\
  split_comma (Metadata (Serialize i ord)) = map FormatInt ord ++ [[]] /\
  (forall k, k ∈ s ->
     FormatInt k <> [] /\ Forall (fun c => is_Some (digit_value c)) (FormatInt k) /\
     parse_digits 0 (FormatInt k) = Some k) /\
  (forall o, Deserialize {| Offset := o; PendingOffsets := Some ∅;
                            Metadata := Metadata (Serialize i ord) |}
             = Ret {| Offset := o; PendingOffsets := Some s;
                      Metadata := Metadata (Serialize i ord) |}).
Proof.
  intros Hpo Hrange Hord.
  unfold range_order in Hord. simpl in Hord.
  assert (Hall : Forall (fun k => 0 <= k < 2 ^ 63)%Z ord).
  { apply Forall_forall. intros k Hk. apply Hrange.
    apply elem_of_elements. rewrite <- Hord. exact Hk. }
  assert (Hset : list_to_set ord = s).
  { rewrite Hord. apply list_to_set_elements_L. }
  simpl. split; [apply serialize_keys_concat|].
  split; [|split; [now apply split_serialize_keys|split]].
  - intros ->. rewrite elements_empty in Hord.
    apply Permutation_nil_r in Hord. now subst.
  - intros k Hk. destruct (FormatInt_decimal k (Hrange k Hk)) as (H1 & H2 & H3).
    auto.
  - intros o. unfold Deserialize. simpl.
    rewrite split_serialize_keys by exact Hall.
    rewrite deserialize_parts_alloc, omap_ParseInt_serialized by exact Hall.
    rewrite Hset, (left_id_L ∅ union s). reflexivity.
Qed.

Lemma C8_serialize_roundtrip_witness :
  Deserialize {| Offset := 0; PendingOffsets := Some ∅;
                 Metadata := Metadata (Serialize ledger_pending_357 [7%Z; 3%Z; 5%Z]) |}
  = Ret {| Offset := 0; PendingOffsets := Some {[3%Z; 5%Z; 7%Z]};
           Metadata := Metadata (Serialize ledger_pending_357 [7%Z; 3%Z; 5%Z]) |}.
Proof.
  refine (proj2 (proj2 (proj2 (proj2
    (C8_serialize_roundtrip ledger_pending_357 {[3%Z; 5%Z; 7%Z]} [7%Z; 3%Z; 5%Z]
       eq_refl _ _)))) 0%Z).
  - intros k Hk. rewrite !elem_of_union, !elem_of_singleton in Hk. lia.
  - unfold range_order. simpl.
    apply NoDup_Permutation; [repeat constructor; set_solver|apply NoDup_elements|].
    intros x. rewrite elem_of_elements. set_solver.
Defined.

(* ------------------------------------------------------------------ *)
(** ** sort.Search and Diff *)

Section SearchSpec.
Variable n : nat.
Variable f : nat -> bool.
Hypothesis f_mono : forall a b, (a <= b < n)%nat -> f a = true -> f b = true.

(** The loop keeps [f] false below [i] and true from [j] to [n]. *)
Lemma search_loop_spec (fuel i j : nat) :
  (i <= j <= n)%nat -> (j - i <= fuel)%nat ->
  (forall k, (k < i)%nat -> f k = false) ->
  (forall k, (j <= k < n)%nat -> f k = true) ->
  let r := search_loop fuel f i j in
  (r <= n)%nat /\ (forall k, (k < r)%nat -> f k = false) /\
  (forall k, (r <= k < n)%nat -> f k = true).
Proof.
  revert i j. induction fuel as [|fu IH]; intros i j Hij Hfuel Hlo Hhi;
    cbn [search_loop].
  - assert (i = j) as <- by lia. repeat split; auto; lia.
  - destruct (Nat.ltb_spec i j) as [Hlt|Hge].
    + assert (Hh : (i <= (i + j) / 2 < j)%nat).
      { split; [apply Nat.div_le_lower_bound|apply Nat.Div0.div_lt_upper_bound]; lia. }
      destruct (f ((i + j) / 2)) eqn:Hf.
      * apply IH; auto; try lia.
        intros k Hk. apply (f_mono ((i + j) / 2)); [lia|exact Hf].
      * apply IH; auto; try lia.
        intros k Hk. destruct (Nat.lt_ge_cases k i) as [Hki|Hki]; [auto|].
        destruct (f k) eqn:Hfk; [|reflexivity].
        rewrite (f_mono k ((i + j) / 2)) in Hf; [discriminate|lia|exact Hfk].
    + assert (i = j) as <- by lia. repeat split; auto; lia.
Qed.

(** [sort.Search(n, f)] is the least index where [f] holds, or [n]. *)
Lemma Search_spec :
  (Search n f <= n)%nat /\ (forall k, (k < Search n f)%nat -> f k = false) /\
  (forall k, (Search n f <= k < n)%nat -> f k = true).
Proof.
  apply search_loop_spec; intros; lia.
Qed.
End SearchSpec.

Lemma sorted_nth_le (o : list Z) (a b : nat) :
  StronglySorted Z.lt o -> (a <= b < length o)%nat ->
  (nth a o 0 <= nth b o 0)%Z.
Proof.
  revert a b. induction o as [|y o IH]; intros a b Hs Hab; simpl in *; [lia|].
  apply StronglySorted_inv in Hs. destruct Hs as [Hs Hy].
  destruct a as [|a], b as [|b]; try lia.
  - rewrite Forall_forall in Hy.
    assert (Hin : nth b o 0%Z ∈ o) by (apply list_elem_of_In, nth_In; lia).
    specialize (Hy _ Hin). lia.
  - apply IH; auto; lia.
Qed.

(** The test of [Diff] finds [x] in a sorted [o] exactly when [x] is an
    element of [o]. *)
Lemma diff_found (o : list Z) (x : Z) :
  StronglySorted Z.lt o ->
  let n := Search (length o) (fun i => (x <=? nth i o 0)%Z) in
  (n <? length o)%nat && (nth n o 0 =? x)%Z = bool_decide (x ∈ o).
Proof.
  intros Hs n.
  assert (Hmono : forall a b, (a <= b < length o)%nat ->
            (x <=? nth a o 0)%Z = true -> (x <=? nth b o 0)%Z = true).
  { intros a b Hab Ha. apply Z.leb_le in Ha. apply Z.leb_le.
    pose proof (sorted_nth_le o a b Hs Hab). lia. }
  destruct (Search_spec (length o) _ Hmono) as (Hn & Hlow & Hhigh).
  fold n in Hn, Hlow, Hhigh.
  destruct (bool_decide_reflect (x ∈ o)) as [Hin|Hnin].
  - apply list_elem_of_In in Hin. apply In_nth with (d := 0%Z) in Hin.
    destruct Hin as (p & Hp & Hpx).
    assert (Hnp : (n <= p)%nat).
    { destruct (Nat.le_gt_cases n p) as [|Hlt]; [assumption|].
      specialize (Hlow p Hlt). rewrite Hpx, Z.leb_refl in Hlow. discriminate. }
    specialize (Hhigh n ltac:(lia)). apply Z.leb_le in Hhigh.
    pose proof (sorted_nth_le o n p Hs ltac:(lia)).
    apply andb_true_intro. split; [apply Nat.ltb_lt; lia|apply Z.eqb_eq; lia].
  - destruct (Nat.ltb_spec n (length o)); [|reflexivity].
    destruct (Z.eqb_spec (nth n o 0%Z) x) as [Heq|]; [|reflexivity].
    exfalso. apply Hnin. rewrite <- Heq. apply list_elem_of_In, nth_In. lia.
Qed.

(** C10: for ascending, duplicate-free [A] and [B], [A.Diff(B)] is the
    elements of [A] that are not in [B], in [A]'s order; so
    [A.Diff(A)] and [[].Diff(B)] are empty. *)
Theorem C10_diff (A B : list Z) :
  StronglySorted Z.lt A -> StronglySorted Z.lt B ->
  Diff A B = filter (fun x => x ∉ B) A /\ Diff A A = [] /\ Diff [] B = [].
Proof.
  intros HA HB.
  assert (Hgen : forall P Q, StronglySorted Z.lt Q ->
            Diff P Q = filter (fun x => x ∉ Q) P).
  { intros P Q HQ. induction P as [|x P IH]; [reflexivity|].
    simpl. rewrite (diff_found Q x HQ), IH. rewrite filter_cons.
    destruct (bool_decide_reflect (x ∈ Q)) as [Hx|Hx];
      destruct (decide (x ∉ Q)); tauto || reflexivity. }
  split; [now apply Hgen|split; [|reflexivity]].
  rewrite (Hgen A A HA).
  enough (Hsub : forall P, (forall x, x ∈ P -> x ∈ A) ->
                   filter (fun x => x ∉ A) P = []) by (apply Hsub; auto).
  intros P. induction P as [|x P IH]; intros HP; [reflexivity|].
  rewrite filter_cons. destruct (decide (x ∉ A)) as [Hx|Hx].
  - exfalso. apply Hx, HP. left.
  - apply IH. intros y Hy. apply HP. right. exact Hy.
Qed.

Lemma C10_diff_witness :
  Diff [0; 1; 2; 3; 4; 5]%Z [1; 3; 5]%Z = [0; 2; 4]%Z /\
  Diff [0; 1; 2; 3; 4; 5]%Z [0; 1; 2; 3; 4; 5]%Z = [] /\ Diff [] [1; 3; 5]%Z = [].
Proof.
  destruct (C10_diff [0; 1; 2; 3; 4; 5]%Z [1; 3; 5]%Z) as (H1 & H2 & H3).
  - repeat constructor; simpl; lia.
  - repeat constructor; simpl; lia.
  - split; [|split; [exact H2|exact H3]].
    rewrite H1. vm_compute. reflexivity.
Defined.

(* ================================================================== *)
(** * Further properties of the code *)

(* ------------------------------------------------------------------ *)
(** ** State *)

Lemma deserialize_parts_nil_inv (parts : list gostring) (p : panic) :
  deserialize_parts None parts = Panic p ->
  exists tok v, tok ∈ parts /\ ParseInt tok = Some v.
Proof.
  induction parts as [|k ks IH]; simpl; intros H; [discriminate|].
  destruct k as [|c r].
  - destruct (IH H) as (tok & v & Hin & Hp). exists tok, v. split; [right|]; auto.
  - destruct (ParseInt (c :: r)) as [v|] eqn:Hp.
    + exists (c :: r), v. split; [left|exact Hp].
    + destruct (IH H) as (tok & v & Hin & Hp'). exists tok, v. split; [right|]; auto.
Qed.

(** [State()] on a consumer fails exactly when its pending map is nil
    and its metadata holds a token [ParseInt] accepts; the failure is the
    nil-map write of [Deserialize]. *)
Theorem State_panics_iff (ord : list Z) (c : partitionConsumer) :
  (exists p, State ord (Some c) = Panic p) <->
  PendingOffsets (Info (state c)) = None /\
  exists tok v, tok ∈ split_comma (Metadata (Info (state c))) /\ ParseInt tok = Some v.
Proof.
  unfold State. destruct (state c) as [[o pm md] d]. simpl. split.
  - intros [p H]. destruct md as [|ch r]; [discriminate|].
    destruct (map_len pm =? 0)%nat; [|discriminate].
    unfold Deserialize in H. cbn [PendingOffsets Metadata Info] in H.
    destruct pm as [m|].
    + rewrite deserialize_parts_alloc in H. discriminate.
    + split; [reflexivity|].
      destruct (deserialize_parts None (split_comma (ch :: r))) eqn:Hd;
        [simpl in H; discriminate|].
      eapply deserialize_parts_nil_inv. exact Hd.
  - intros [-> (tok & v & Hin & Hp)].
    pose proof (split_comma_nonempty_meta _ _ _ Hin Hp) as Hne.
    destruct md as [|ch r]; [contradiction|].
    exists NilMapWrite. unfold Deserialize. cbn [PendingOffsets Metadata Info].
    rewrite (deserialize_parts_nil_map _ tok v Hin Hp). reflexivity.
Qed.

(** [State()] reports the consumer's confirmed offset and dirty flag as
    they are; it keeps non-empty metadata and replaces empty metadata by
    the serialization of the pending set. *)
Theorem State_preserves (ord : list Z) (c : partitionConsumer) (st : partitionState) :
  State ord (Some c) = Ret st ->
  Offset (Info st) = Offset (Info (state c)) /\ Dirty st = Dirty (state c) /\
  Metadata (Info st) =
    match Metadata (Info (state c)) with [] => serialize_keys ord | md => md end.
Proof.
  unfold State. destruct (state c) as [[o pm md] d]. simpl.
  destruct md as [|ch r]; simpl.
  - intros H. inversion H. subst. simpl. auto.
  - destruct (map_len pm =? 0)%nat.
    + unfold Deserialize. cbn [PendingOffsets Metadata Info].
      destruct (deserialize_parts pm (split_comma (ch :: r))); simpl;
        intros H; inversion H; subst; simpl; auto.
    + intros H. inversion H. subst. simpl. auto.
Qed.

Lemma State_preserves_witness :
  Offset (Info state_pending5) = 2%Z /\ Dirty state_pending5 = true /\
  Metadata (Info state_pending5) = serialize_keys [5%Z].
Proof.
  apply (State_preserves [5%Z] consumer_pending5 state_pending5).
  vm_compute. reflexivity.
Defined.

(** When the metadata is empty, [State()] exposes the pending set as
    metadata that [Deserialize] on a fresh ledger turns back into the
    same set (non-negative int64 offsets, any range order). *)
Theorem State_metadata_roundtrip (ord : list Z) (c : partitionConsumer) (s : gset Z) :
  Metadata (Info (state c)) = [] ->
  PendingOffsets (Info (state c)) = Some s ->
  (forall k, k ∈ s -> 0 <= k < 2 ^ 63)%Z ->
  range_order (Some s) ord ->
  exists st, State ord (Some c) = Ret st /\
    PendingOffsets (Info st) = Some s /\
    Deserialize {| Offset := Offset (Info st); PendingOffsets := Some ∅;
                   Metadata := Metadata (Info st) |}
    = Ret {| Offset := Offset (Info st); PendingOffsets := Some s;
             Metadata := Metadata (Info st) |}.
Proof.
  intros Hmd Hpo Hrange Hord.
  unfold range_order in Hord. simpl in Hord.
  assert (Hall : Forall (fun k => 0 <= k < 2 ^ 63)%Z ord).
  { apply Forall_forall. intros k Hk. apply Hrange.
    apply elem_of_elements. rewrite <- Hord. exact Hk. }
  assert (Hset : list_to_set ord = s).
  { rewrite Hord. apply list_to_set_elements_L. }
  unfold State. rewrite Hmd. eexists. split; [reflexivity|]. simpl.
  split; [exact Hpo|].
  unfold Deserialize. simpl.
  rewrite split_serialize_keys by exact Hall.
  rewrite deserialize_parts_alloc, omap_ParseInt_serialized by exact Hall.
  rewrite Hset, (left_id_L ∅ union s). reflexivity.
Qed.

Lemma State_metadata_roundtrip_witness :
  exists st, State [5%Z] (Some consumer_pending5) = Ret st /\
    PendingOffsets (Info st) = Some {[5%Z]} /\
    Deserialize {| Offset := Offset (Info st); PendingOffsets := Some ∅;
                   Metadata := Metadata (Info st) |}
    = Ret {| Offset := Offset (Info st); PendingOffsets := Some {[5%Z]};
             Metadata := Metadata (Info st) |}.
Proof.
  apply State_metadata_roundtrip; [reflexivity|reflexivity| |].
  - intros k Hk. apply elem_of_singleton in Hk. subst. lia.
  - unfold range_order. simpl. rewrite elements_singleton. reflexivity.
Defined.

(* ------------------------------------------------------------------ *)
(** ** AddPendingOffset and RemovePendingOffset *)

(** On an allocated pending map, [AddPendingOffset o] makes [o] pending,
    and a following [RemovePendingOffset o] gives back the consumer as it
    was when [o] was not pending before. *)
Theorem add_remove_pending (c : partitionConsumer) (m : gset Z) (o : Z) :
  PendingOffsets (Info (state c)) = Some m -> o ∉ m ->
  exists c1, AddPendingOffset (Some c) o = Ret (Some c1) /\
    PendingOffsets (Info (state c1)) = Some ({[o]} ∪ m) /\
    RemovePendingOffset (Some c1) o = Ret (Some c).
Proof.
  intros Hpm Ho.
  destruct c as [p [[off pm md] d] cl dy]. cbn in Hpm. subst pm.
  eexists. split; [reflexivity|]. split; [reflexivity|].
  cbn. replace (({[o]} ∪ m) ∖ {[o]}) with m by set_solver. reflexivity.
Qed.

Lemma add_remove_pending_witness :
  exists c1, AddPendingOffset (Some consumer_pending5) 9 = Ret (Some c1) /\
    PendingOffsets (Info (state c1)) = Some ({[9%Z]} ∪ {[5%Z]}) /\
    RemovePendingOffset (Some c1) 9 = Ret (Some consumer_pending5).
Proof.
  apply add_remove_pending; [reflexivity|].
  rewrite elem_of_singleton. lia.
Defined.

(* ------------------------------------------------------------------ *)
(** ** Sequences of MarkOffset, and MarkCommitted after them *)

Lemma mark_offset_some (c : partitionConsumer) (o : Z) (md : gostring) :
  exists c', MarkOffset (Some c) o md = Ret (Some c') /\
    Offset (Info (state c')) = Z.max (Offset (Info (state c))) o /\
    PendingOffsets (Info (state c')) = PendingOffsets (Info (state c)) /\
    Dirty (state c') = (Dirty (state c) || (Offset (Info (state c)) <? o)%Z).
Proof.
  unfold MarkOffset.
  destruct (Z.ltb_spec (Offset (Info (state c))) o) as [Hlt|Hge].
  - eexists. split; [reflexivity|]. cbn.
    destruct md; cbn; (split; [lia|split; [reflexivity|]]);
      now rewrite orb_true_r.
  - exists c. split; [reflexivity|]. split; [lia|split; [reflexivity|]].
    now rewrite orb_false_r.
Qed.

(** After any sequence of [MarkOffset] calls the confirmed offset is the
    largest of the old one and the marked ones; the pending set is
    untouched; the consumer is dirty exactly when it was, or some mark
    exceeded the old confirmed offset. *)
Theorem mark_offsets_max (c : partitionConsumer) (marks : list (Z * gostring)) :
  exists c', mark_offsets (Some c) marks = Ret (Some c') /\
    Offset (Info (state c')) = fold_left Z.max (map fst marks) (Offset (Info (state c))) /\
    PendingOffsets (Info (state c')) = PendingOffsets (Info (state c)) /\
    (Dirty (state c') = true <->
     Dirty (state c) = true \/
     (Offset (Info (state c)) < fold_left Z.max (map fst marks) (Offset (Info (state c))))%Z).
Proof.
  revert c. induction marks as [|[o md] marks IH]; intros c.
  - exists c. simpl. repeat split; auto. intros [H|H]; [exact H|lia].
  - destruct (mark_offset_some c o md) as (c1 & Hm & Hoff & Hpo & Hd).
    destruct (IH c1) as (c' & Hm' & Hoff' & Hpo' & Hd').
    exists c'. cbn [mark_offsets map fold_left fst]. rewrite Hm. cbn [obind].
    split; [exact Hm'|].
    rewrite Hoff in Hoff', Hd'. rewrite Hpo in Hpo'.
    split; [exact Hoff'|split; [exact Hpo'|]].
    rewrite Hd', Hd.
    assert (Hmono : forall l a, (a <= fold_left Z.max l a)%Z).
    { induction l as [|x l IHl]; intros a; simpl; [lia|].
      specialize (IHl (Z.max a x)). lia. }
    specialize (Hmono (map fst marks) (Z.max (Offset (Info (state c))) o)).
    destruct (Z.ltb_spec (Offset (Info (state c))) o) as [Hlt|Hge].
    + rewrite orb_true_r. split; intros _; [right; lia|left; reflexivity].
    + rewrite orb_false_r.
      replace (Z.max (Offset (Info (state c))) o) with (Offset (Info (state c))) by lia.
      reflexivity.
Qed.

(** With empty metadata (plain offset commits), after marking [o1] and
    then [o2] above it, the commit confirmation of the older [o1] leaves
    the consumer dirty, and that of [o2] clears it. *)
Theorem mark_then_commit (c : partitionConsumer) (o1 o2 : Z) :
  Metadata (Info (state c)) = [] ->
  (Offset (Info (state c)) < o1 < o2)%Z ->
  exists c1 c2, MarkOffset (Some c) o1 [] = Ret (Some c1) /\
    MarkOffset (Some c1) o2 [] = Ret (Some c2) /\
    (exists c3, MarkCommitted (Some c2) o1 = Ret (Some c3) /\ Dirty (state c3) = true) /\
    (exists c4, MarkCommitted (Some c2) o2 = Ret (Some c4) /\ Dirty (state c4) = false).
Proof.
  intros Hmd Hlt.
  destruct c as [p [[off pm md] d] cl dy]. cbn in Hmd, Hlt. subst md.
  unfold MarkOffset. cbn.
  destruct (Z.ltb_spec off o1); [|lia].
  do 2 eexists. split; [reflexivity|]. cbn.
  destruct (Z.ltb_spec o1 o2); [|lia].
  split; [reflexivity|]. unfold MarkCommitted. cbn.
  destruct (Z.eqb_spec o1 o2); [lia|].
  rewrite Z.eqb_refl. cbn.
  split; eexists; split; reflexivity.
Qed.

Lemma mark_then_commit_witness :
  exists c1 c2, MarkOffset (Some (consumer_at 5 [] false)) 7 [] = Ret (Some c1) /\
    MarkOffset (Some c1) 9 [] = Ret (Some c2) /\
    (exists c3, MarkCommitted (Some c2) 7 = Ret (Some c3) /\ Dirty (state c3) = true) /\
    (exists c4, MarkCommitted (Some c2) 9 = Ret (Some c4) /\ Dirty (state c4) = false).
Proof. apply mark_then_commit; [reflexivity|simpl; lia]. Defined.

(* ------------------------------------------------------------------ *)
(** ** newPartitionConsumer *)

(** When the first request is out of range, [newPartitionConsumer]
    retries once at [defaultOffset]: if that succeeds the new consumer
    is open and clean, keeps the pending set and metadata, and its
    ledger, whose offset is reset to -1, resumes from [defaultOffset];
    if the retry fails, its error is returned. *)
Theorem newPartitionConsumer_out_of_range (manager : consumer_manager)
    (topic : gostring) (partition : Z) (info : offsetInfo) (ord : list Z)
    (dflt : Z) :
  manager topic partition (NextOffset info ord dflt) = inr ErrOffsetOutOfRange ->
  (forall pcm0, manager topic partition dflt = inl pcm0 ->
     exists c, newPartitionConsumer manager topic partition info ord dflt = inl c /\
       pcm c = pcm0 /\ closed c = false /\ Dirty (state c) = false /\
       Offset (Info (state c)) = (-1)%Z /\
       PendingOffsets (Info (state c)) = PendingOffsets info /\
       Metadata (Info (state c)) = Metadata info /\
       (forall ord', NextOffset (Info (state c)) ord' dflt = dflt)) /\
  (forall err, manager topic partition dflt = inr err ->
     newPartitionConsumer manager topic partition info ord dflt = inr err).
Proof.
  intros Hfirst. unfold newPartitionConsumer. rewrite Hfirst. split.
  - intros pcm0 Hretry. rewrite Hretry. eexists.
    split; [reflexivity|]. cbn. repeat split; auto.
  - intros err Hretry. rewrite Hretry. reflexivity.
Qed.

Lemma newPartitionConsumer_out_of_range_witness :
  exists c, newPartitionConsumer (manager_retained_from 10) (gs "t"%string) 0
              ledger_confirmed [5%Z; 7%Z] 20 = inl c /\
    pcm c = {| pcm_close_result := None; pcm_closed := false; pcm_cursor := 20 |} /\
    closed c = false /\ Dirty (state c) = false /\
    Offset (Info (state c)) = (-1)%Z /\
    PendingOffsets (Info (state c)) = PendingOffsets ledger_confirmed /\
    Metadata (Info (state c)) = Metadata ledger_confirmed /\
    (forall ord', NextOffset (Info (state c)) ord' 20 = 20%Z).
Proof.
  apply (newPartitionConsumer_out_of_range (manager_retained_from 10) _ 0
           ledger_confirmed [5%Z; 7%Z] 20); reflexivity.
Defined.

(* ------------------------------------------------------------------ *)
(** ** int32Slice.Diff on any second slice *)

(** Whatever the order of [o], [Diff p o] keeps a sub-sequence of [p]
    (in [p]'s order) and drops nothing that is absent from [o]: the
    binary search can only make [Diff] keep more, never drop an element
    that [o] lacks. *)
Theorem Diff_sublist_keeps_absent (p o : list Z) :
  Diff p o `sublist_of` p /\ (forall x, x ∈ p -> x ∉ o -> x ∈ Diff p o).
Proof.
  induction p as [|x xs [IHs IHk]]; cbn [Diff].
  - split; [constructor|]. intros x Hx. inversion Hx.
  - set (n := Search (length o) (fun i => (x <=? nth i o 0)%Z)).
    destruct ((n <? length o)%nat && (nth n o 0 =? x)%Z) eqn:Hf.
    + apply andb_true_iff in Hf as [Hn Hx].
      apply Nat.ltb_lt in Hn. apply Z.eqb_eq in Hx.
      split; [by apply sublist_cons|].
      intros y Hy Hyo. apply elem_of_cons in Hy as [->|Hy]; [|by apply IHk].
      exfalso. apply Hyo. rewrite <- Hx. apply list_elem_of_In. by apply nth_In.
    + split; [by apply sublist_skip|].
      intros y Hy Hyo. apply elem_of_cons in Hy as [->|Hy].
      * left.
      * right. by apply IHk.
Qed.

(* ------------------------------------------------------------------ *)
(** ** The forwarding loop *)

Section ForwardLoopFacts.
Variable message : Type.

(** What every reachable state satisfies: the messages the stream sent
    are, in order, those forwarded, at most one dropped on exit, and
    those still queued; the loop has only exited after [dying] was
    closed or one of the stream's channels was closed. *)
Definition loop_inv (s : loop_state message) : Prop :=
  (exists d, produced s = out_msgs s ++ d ++ in_msgs s /\
     (dead_sig s = false -> d = []) /\ (length d <= 1)%nat) /\
  (dead_sig s = true ->
     dying_sig s = true \/ msgs_open s = false \/ errs_open s = false).

Lemma loop_step_inv (s s' : loop_state message) (ev : loop_event message) :
  loop_inv s -> loop_step s ev = Some s' -> loop_inv s'.
Proof.
  destruct s as [pr im mo ie eo dy om oe dd].
  intros [(d & Hpr & Hd & Hlen) Hdead] Hstep.
  unfold loop_inv in *; cbn in *.
  destruct ev as [b|b| |m|e| | | ]; cbn in Hstep.
  - destruct dd; [discriminate|]. specialize (Hd eq_refl). subst d.
    destruct im as [|m rest].
    + destruct mo; [discriminate|]. injection Hstep as <-. cbn.
      split; [exists []; auto|]. auto.
    + destruct b.
      * injection Hstep as <-. cbn. split; [|discriminate].
        exists []. split; [|auto]. rewrite Hpr. cbn. by rewrite <- app_assoc.
      * destruct dy; [|discriminate]. injection Hstep as <-. cbn.
        split; [|auto]. exists [m]. split; [|split; [discriminate|cbn; lia]].
        rewrite Hpr. reflexivity.
  - destruct dd; [discriminate|]. destruct ie as [|e rest].
    + destruct eo; [discriminate|]. injection Hstep as <-. cbn.
      split; [exists d; auto|]. auto.
    + destruct b.
      * injection Hstep as <-. cbn. split; [exists d; auto|discriminate].
      * destruct dy; [|discriminate]. injection Hstep as <-. cbn.
        split; [|auto]. exists d. split; [exact Hpr|split; [discriminate|exact Hlen]].
  - destruct dd; [discriminate|]. destruct dy; [|discriminate].
    injection Hstep as <-. cbn. split; [exists d; auto|auto].
  - destruct mo; [|discriminate]. injection Hstep as <-. cbn.
    split; [|exact Hdead]. exists d. split; [|auto].
    rewrite Hpr. by rewrite !app_assoc.
  - destruct eo; [|discriminate]. injection Hstep as <-. cbn.
    split; [exists d; auto|exact Hdead].
  - destruct mo; [|discriminate]. injection Hstep as <-. cbn.
    split; [exists d; auto|auto].
  - destruct eo; [|discriminate]. injection Hstep as <-. cbn.
    split; [exists d; auto|auto].
  - destruct dy; [discriminate|]. injection Hstep as <-. cbn.
    split; [exists d; auto|auto].
Qed.

Lemma loop_run_inv (s s' : loop_state message) (sched : list (loop_event message)) :
  loop_inv s -> loop_run s sched = Some s' -> loop_inv s'.
Proof.
  revert s. induction sched as [|ev evs IH]; intros s Hs Hrun; cbn in Hrun.
  - by injection Hrun as <-.
  - destruct (loop_step s ev) as [s1|] eqn:Hstep; [|discriminate].
    exact (IH s1 (loop_step_inv s s1 ev Hs Hstep) Hrun).
Qed.

End ForwardLoopFacts.

(** A run of [Loop] forwards the stream's messages in order, none twice:
    what it has sent on [messages] is a prefix of what the stream
    produced, and while it runs nothing is lost (everything else is still
    queued); when it has exited, at most one received message was dropped.
    It exits only after [dying] is closed or a stream channel is closed. *)
Theorem Loop_forwards_in_order {message : Type} (sched : list (loop_event message))
    (s : loop_state message) :
  loop_run loop_start sched = Some s ->
  (exists rest, produced s = out_msgs s ++ rest) /\
  (dead_sig s = false -> produced s = out_msgs s ++ in_msgs s) /\
  (dead_sig s = true ->
     (exists d, produced s = out_msgs s ++ d ++ in_msgs s /\ (length d <= 1)%nat) /\
     (dying_sig s = true \/ msgs_open s = false \/ errs_open s = false)).
Proof.
  intros Hrun.
  assert (Hi : loop_inv message s).
  { apply (loop_run_inv message loop_start s sched); [|exact Hrun].
    split; [exists []; cbn; auto|]. cbn. discriminate. }
  destruct Hi as [(d & Hpr & Hd & Hlen) Hdead].
  split; [exists (d ++ in_msgs s); exact Hpr|].
  split.
  - intros Hnd. rewrite Hpr, (Hd Hnd). reflexivity.
  - intros Hdd. split; [exists d; auto|auto].
Qed.

Lemma Loop_forwards_in_order_witness :
  loop_run loop_start
    [ArriveMsg 1%nat; ArriveMsg 2%nat; PickMsg true; SignalDying; PickMsg false] =
    Some (mk_loop_state [1%nat; 2%nat] [] true [] true true [1%nat] [] true) /\
  ((exists rest, [1%nat; 2%nat] = [1%nat] ++ rest) /\
   (true = false -> [1%nat; 2%nat] = [1%nat] ++ []) /\
   (true = true ->
      (exists d, [1%nat; 2%nat] = [1%nat] ++ d ++ [] /\ (length d <= 1)%nat) /\
      (true = true \/ true = false \/ true = false))).
Proof.
  split; [reflexivity|].
  exact (Loop_forwards_in_order
           [ArriveMsg 1%nat; ArriveMsg 2%nat; PickMsg true; SignalDying; PickMsg false]
           (mk_loop_state [1%nat; 2%nat] [] true [] true true [1%nat] [] true)
           eq_refl).
Defined.


(* ------------------------------------------------------------------ *)
(** ** partitionMap *)


(** [PartitionMap.Fetch] returns what [PartitionMap.Store] put under the same topic and partition,
    [PartitionMap.Store] leaves every other key as it was, and a fresh map gives nil
    for every key. *)
Theorem Fetch_Store (m : partitionMap) (topic : gostring) (partition : Z)
    (pc : handle) :
  PartitionMap.Fetch (PartitionMap.Store m topic partition pc) topic partition = pc /\
  (forall topic' partition', (topic', partition') <> (topic, partition) ->
     PartitionMap.Fetch (PartitionMap.Store m topic partition pc) topic' partition' = PartitionMap.Fetch m topic' partition') /\
  (forall topic' partition', PartitionMap.Fetch PartitionMap.newPartitionMap topic' partition' = None).
Proof.
  unfold PartitionMap.Fetch, PartitionMap.Store. split; [by rewrite lookup_insert_eq|split].
  - intros t' p' Hne. rewrite lookup_insert_ne; [reflexivity|congruence].
  - intros t' p'. unfold PartitionMap.newPartitionMap. by rewrite lookup_empty.
Qed.

Lemma Clear_lookup (ents : list (topicPartition * handle)) (m : partitionMap)
    (k : topicPartition) :
  PartitionMap.Clear ents m !! k = if decide (k ∈ ents.*1) then None else m !! k.
Proof.
  revert m. induction ents as [|[tp h] rest IH]; intros m; cbn [PartitionMap.Clear].
  - destruct (decide (k ∈ [])) as [Hk|]; [inversion Hk|reflexivity].
  - rewrite IH. cbn [fmap list_fmap fst].
    destruct (decide (k ∈ rest.*1)) as [Hk|Hk];
      destruct (decide (k ∈ tp :: rest.*1)) as [Hk'|Hk']; try reflexivity.
    + exfalso. apply Hk'. by right.
    + apply elem_of_cons in Hk' as [->|Hk']; [|contradiction].
      apply lookup_delete_eq.
    + apply lookup_delete_ne. intros ->. apply Hk'. left.
Qed.

(** [PartitionMap.Clear] deletes every key while ranging over the map: whatever
    order the runtime picks, the map ends up empty. *)
Theorem Clear_empties (m : partitionMap) (ents : list (topicPartition * handle)) :
  range_entries m ents -> PartitionMap.Clear ents m = ∅.
Proof.
  intros Hr. apply map_eq. intros k. rewrite Clear_lookup, lookup_empty.
  destruct (decide (k ∈ ents.*1)) as [|Hk]; [reflexivity|].
  destruct (m !! k) as [h|] eqn:Hmk; [|reflexivity].
  exfalso. apply Hk. apply list_elem_of_fmap. exists (k, h). split; [reflexivity|].
  unfold range_entries in Hr. rewrite Hr. by apply elem_of_map_to_list.
Qed.

Lemma Clear_empties_witness :
  range_entries reg_sample (map_to_list reg_sample) /\
  PartitionMap.Clear (map_to_list reg_sample) reg_sample = ∅.
Proof.
  split; [unfold range_entries; reflexivity|].
  apply Clear_empties. unfold range_entries; reflexivity.
Defined.

Lemma State_dirty (ord : list Z) (h : handle) (st : partitionState) :
  State ord h = Ret st ->
  Dirty st = match h with None => false | Some c => Dirty (state c) end.
Proof.
  destruct h as [c|]; cbn [State].
  - destruct (Metadata (Info (state c))) as [|a md].
    + intros H. injection H as <-. reflexivity.
    + destruct (map_len (PendingOffsets (Info (state c))) =? 0)%nat.
      * destruct (Deserialize (Info (state c))) as [i'|p]; cbn; intros H;
          [injection H as <-; reflexivity|discriminate].
      * intros H. injection H as <-. reflexivity.
  - intros H. injection H as <-. reflexivity.
Qed.

Lemma State_nonnil_ok (ord : list Z) (c : partitionConsumer) :
  is_Some (PendingOffsets (Info (state c))) ->
  exists st, State ord (Some c) = Ret st.
Proof.
  intros [pm Hpm]. cbn [State].
  destruct (Metadata (Info (state c))); [eexists; reflexivity|].
  destruct (map_len (PendingOffsets (Info (state c))) =? 0)%nat; [|eexists; reflexivity].
  unfold Deserialize. rewrite Hpm, deserialize_parts_alloc. cbn [obind].
  eexists; reflexivity.
Qed.

Lemma range_entries_elem (m : partitionMap) (ents : list (topicPartition * handle))
    (tp : topicPartition) (pc : handle) :
  range_entries m ents -> ((tp, pc) ∈ ents <-> m !! tp = Some pc).
Proof.
  intros Hr. unfold range_entries in Hr. rewrite Hr. apply elem_of_map_to_list.
Qed.

Lemma range_entries_nodup (m : partitionMap) (ents : list (topicPartition * handle)) :
  range_entries m ents -> NoDup ents.*1.
Proof.
  intros Hr. unfold range_entries in Hr. rewrite Hr. apply NoDup_fst_map_to_list.
Qed.

Lemma HasDirty_list (ents : list (topicPartition * handle))
    (sord : topicPartition -> list Z) :
  (forall tp c, (tp, Some c) ∈ ents -> exists st, State (sord tp) (Some c) = Ret st) ->
  exists b, PartitionMap.HasDirty ents sord = Ret b /\
    (b = true <-> exists tp c, (tp, Some c) ∈ ents /\ Dirty (state c) = true).
Proof.
  induction ents as [|[tp pc] rest IH]; intros Hok; cbn [PartitionMap.HasDirty].
  - exists false. split; [reflexivity|]. split; [discriminate|].
    intros (? & ? & Hin & _). inversion Hin.
  - assert (Hrest : forall tp' c', (tp', Some c') ∈ rest ->
              exists st, State (sord tp') (Some c') = Ret st)
      by (intros tp' c' Hin; apply Hok; by right).
    destruct (IH Hrest) as (b & Hb & Hiff).
    assert (Hhead : exists st, State (sord tp) pc = Ret st /\
              Dirty st = match pc with None => false | Some c => Dirty (state c) end).
    { destruct pc as [c|].
      - destruct (Hok tp c (list_elem_of_here _ _)) as [st Hs].
        exists st. split; [exact Hs|exact (State_dirty _ _ _ Hs)].
      - exists zero_state. split; reflexivity. }
    destruct Hhead as (st & Hs & Hd). rewrite Hs. cbn [obind].
    destruct (Dirty st) eqn:Hst.
    + exists true. split; [reflexivity|]. split; [|reflexivity].
      intros _. destruct pc as [c|]; [|discriminate].
      exists tp, c. split; [left|cbn in Hd; congruence].
    + exists b. split; [exact Hb|]. rewrite Hiff.
      split; intros (tp' & c' & Hin & Hd'); exists tp', c'; split; auto.
      * by right.
      * apply elem_of_cons in Hin as [Heq|Hin]; [|exact Hin].
        injection Heq as -> <-. cbn in Hd; congruence.
Qed.

Lemma HasDirty_map (m : partitionMap) (ents : list (topicPartition * handle))
    (sord : topicPartition -> list Z) :
  range_entries m ents ->
  (forall tp c, m !! tp = Some (Some c) -> exists st, State (sord tp) (Some c) = Ret st) ->
  exists b, PartitionMap.HasDirty ents sord = Ret b /\
    (b = true <-> exists tp c, m !! tp = Some (Some c) /\ Dirty (state c) = true).
Proof.
  intros Hr Hok.
  destruct (HasDirty_list ents sord) as (b & Hb & Hiff).
  { intros tp c Hin. apply Hok. by apply (range_entries_elem m ents). }
  exists b. split; [exact Hb|]. rewrite Hiff.
  split; intros (tp & c & Hin & Hd); exists tp, c; split; auto;
    by apply (range_entries_elem m ents).
Qed.

(** When every consumer's [State] returns, [HasDirty] answers true
    exactly when some stored non-nil consumer is dirty, whatever order
    the range visits the entries in; nil entries count as clean. *)
Theorem HasDirty_spec (m : partitionMap) (ents : list (topicPartition * handle))
    (sord : topicPartition -> list Z) :
  range_entries m ents ->
  (forall tp c, m !! tp = Some (Some c) -> exists st, State (sord tp) (Some c) = Ret st) ->
  exists b, PartitionMap.HasDirty ents sord = Ret b /\
    (b = true <-> exists tp c, m !! tp = Some (Some c) /\ Dirty (state c) = true).
Proof. apply HasDirty_map. Qed.

Lemma HasDirty_spec_witness :
  range_entries reg_sample (map_to_list reg_sample) /\
  (forall tp c, reg_sample !! tp = Some (Some c) ->
     exists st, State [] (Some c) = Ret st) /\
  exists b, PartitionMap.HasDirty (map_to_list reg_sample) (fun _ => []) = Ret b /\
    (b = true <-> exists tp c, reg_sample !! tp = Some (Some c) /\ Dirty (state c) = true).
Proof.
  assert (Hok : forall tp c, reg_sample !! tp = Some (Some c) ->
            exists st, State [] (Some c) = Ret st).
  { intros tp c Hc. apply State_nonnil_ok.
    unfold reg_sample in Hc.
    repeat (rewrite lookup_insert in Hc; case_decide;
      [first [congruence | injection Hc as <-; eexists; reflexivity]|]).
    rewrite lookup_empty in Hc. discriminate. }
  split; [unfold range_entries; reflexivity|]. split; [exact Hok|].
  apply (HasDirty_spec reg_sample); [unfold range_entries; reflexivity|exact Hok].
Defined.

(** A caller that marks an offset beyond the committed one on a stored
    consumer (with a non-nil pending map everywhere) and stores the
    result back makes [HasDirty] report true. *)
Theorem mark_store_has_dirty (m : partitionMap) (topic : gostring) (partition : Z)
    (c c' : partitionConsumer) (offset : Z) (metadata : gostring)
    (ents : list (topicPartition * handle)) (sord : topicPartition -> list Z) :
  (forall tp c0, m !! tp = Some (Some c0) -> is_Some (PendingOffsets (Info (state c0)))) ->
  m !! (topic, partition) = Some (Some c) ->
  (Offset (Info (state c)) < offset)%Z ->
  MarkOffset (PartitionMap.Fetch m topic partition) offset metadata = Ret (Some c') ->
  range_entries (PartitionMap.Store m topic partition (Some c')) ents ->
  PartitionMap.HasDirty ents sord = Ret true.
Proof.
  intros Hnn Hc Hlt Hmark Hr.
  unfold PartitionMap.Fetch in Hmark. rewrite Hc in Hmark.
  destruct (mark_offset_some c offset metadata) as (c1 & Hm & _ & Hpo & Hd).
  rewrite Hm in Hmark. injection Hmark as <-.
  assert (Hd1 : Dirty (state c1) = true).
  { rewrite Hd. destruct (Z.ltb_spec (Offset (Info (state c))) offset); [|lia].
    apply orb_true_r. }
  destruct (HasDirty_map _ ents sord Hr) as (b & Hb & Hiff).
  { intros tp c0 Hc0. apply State_nonnil_ok.
    unfold PartitionMap.Store in Hc0.
    destruct (decide (tp = (topic, partition))) as [->|Hne].
    - rewrite lookup_insert_eq in Hc0. injection Hc0 as <-. rewrite Hpo.
      exact (Hnn _ _ Hc).
    - rewrite lookup_insert_ne in Hc0 by congruence. exact (Hnn _ _ Hc0). }
  rewrite Hb. f_equal. apply Hiff. exists (topic, partition), c1. split; [|exact Hd1].
  unfold PartitionMap.Store. apply lookup_insert_eq.
Qed.

Lemma mark_store_has_dirty_witness :
  PartitionMap.HasDirty
    (map_to_list (PartitionMap.Store reg_clean (gs "a"%string) 1
                    (Some (with_state (consumer_at 5 [] false)
                       {| Info := {| Offset := 9; PendingOffsets := Some ∅; Metadata := [] |};
                          Dirty := true |}))))
    (fun _ => []) = Ret true.
Proof.
  apply (mark_store_has_dirty reg_clean (gs "a"%string) 1 (consumer_at 5 [] false)
           (with_state (consumer_at 5 [] false)
              {| Info := {| Offset := 9; PendingOffsets := Some ∅; Metadata := [] |};
                 Dirty := true |}) 9 []).
  - intros tp c0 Hc. unfold reg_clean, reg_sample in Hc.
    repeat (rewrite lookup_delete in Hc; case_decide; [discriminate|]).
    repeat (rewrite lookup_insert in Hc; case_decide;
      [first [congruence | injection Hc as <-; eexists; reflexivity]|]).
    rewrite lookup_empty in Hc. discriminate.
  - reflexivity.
  - cbn. lia.
  - reflexivity.
  - unfold range_entries; reflexivity.
Defined.

Lemma fst_elem (ents : list (topicPartition * handle)) (tp : topicPartition) (pc : handle) :
  (tp, pc) ∈ ents -> tp ∈ ents.*1.
Proof. intros H. apply (list_elem_of_fmap_2 fst) in H. exact H. Qed.

Lemma snapshot_loop_spec (ents : list (topicPartition * handle))
    (sord : topicPartition -> list Z) (snap : gmap topicPartition partitionState) :
  NoDup ents.*1 ->
  (forall tp pc, (tp, pc) ∈ ents -> exists st, State (sord tp) pc = Ret st) ->
  exists snap', PartitionMap.snapshot_loop ents sord snap = Ret snap' /\
    forall tp,
      (forall pc, (tp, pc) ∈ ents -> exists st, snap' !! tp = Some st /\ State (sord tp) pc = Ret st) /\
      (tp ∉ ents.*1 -> snap' !! tp = snap !! tp).
Proof.
  revert snap. induction ents as [|[tp0 pc0] rest IH]; intros snap Hnd Hok.
  - exists snap. split; [reflexivity|]. intros tp.
    split; [intros pc Hin; inversion Hin|reflexivity].
  - cbn [fmap list_fmap fst] in Hnd. apply NoDup_cons in Hnd as [Hnin Hnd].
    destruct (Hok tp0 pc0 (list_elem_of_here _ _)) as [st0 Hs0].
    cbn [PartitionMap.snapshot_loop]. rewrite Hs0. cbn [obind].
    destruct (IH (<[tp0 := st0]> snap) Hnd) as (snap' & Hrun & Hspec).
    { intros tp pc Hin. apply Hok. by right. }
    exists snap'. split; [exact Hrun|]. intros tp. split.
    + intros pc Hin. apply elem_of_cons in Hin as [Heq|Hin].
      * injection Heq as -> ->. exists st0. split; [|exact Hs0].
        rewrite (proj2 (Hspec tp0) Hnin). apply lookup_insert_eq.
      * exact (proj1 (Hspec tp) pc Hin).
    + intros Hn. cbn [fmap list_fmap fst] in Hn.
      rewrite (proj2 (Hspec tp)) by (intros H; apply Hn; by right).
      apply lookup_insert_ne. intros ->. apply Hn. left.
Qed.

(** When every [State] call returns, [Snapshot] has exactly the
    registry's keys, and each one holds what [State] reports for the
    consumer stored there (the zero state for a nil entry). *)
Theorem Snapshot_spec (m : partitionMap) (ents : list (topicPartition * handle))
    (sord : topicPartition -> list Z) :
  range_entries m ents ->
  (forall tp pc, m !! tp = Some pc -> exists st, State (sord tp) pc = Ret st) ->
  exists snap, PartitionMap.Snapshot ents sord = Ret snap /\
    forall tp, match m !! tp with
               | None => snap !! tp = None
               | Some pc => exists st, snap !! tp = Some st /\ State (sord tp) pc = Ret st
               end.
Proof.
  intros Hr Hok. unfold PartitionMap.Snapshot.
  destruct (snapshot_loop_spec ents sord ∅ (range_entries_nodup m ents Hr))
    as (snap & Hrun & Hspec).
  { intros tp pc Hin. apply Hok. by apply (range_entries_elem m ents). }
  exists snap. split; [exact Hrun|]. intros tp.
  destruct (m !! tp) as [pc|] eqn:Hm.
  - apply (proj1 (Hspec tp)). by apply (range_entries_elem m ents).
  - rewrite (proj2 (Hspec tp)); [apply lookup_empty|].
    intros Hin. apply list_elem_of_fmap in Hin as ([tp' pc] & -> & Hin).
    apply (range_entries_elem m ents) in Hin; [|exact Hr]. cbn in Hm. congruence.
Qed.

Lemma Snapshot_spec_witness :
  range_entries reg_sample (map_to_list reg_sample) /\
  (forall tp pc, reg_sample !! tp = Some pc -> exists st, State [] pc = Ret st) /\
  exists snap, PartitionMap.Snapshot (map_to_list reg_sample) (fun _ => []) = Ret snap /\
    forall tp, match reg_sample !! tp with
               | None => snap !! tp = None
               | Some pc => exists st, snap !! tp = Some st /\ State [] pc = Ret st
               end.
Proof.
  assert (Hok : forall tp pc, reg_sample !! tp = Some pc -> exists st, State [] pc = Ret st).
  { intros tp pc Hc. unfold reg_sample in Hc.
    repeat (rewrite lookup_insert in Hc; case_decide;
      [injection Hc as <-; eexists; reflexivity|]).
    rewrite lookup_empty in Hc. discriminate. }
  split; [unfold range_entries; reflexivity|]. split; [exact Hok|].
  apply (Snapshot_spec reg_sample); [unfold range_entries; reflexivity|exact Hok].
Defined.

Lemma Stop_list (ents : list (topicPartition * handle)) (m : partitionMap) :
  NoDup ents.*1 -> (forall tp, (tp, None) ∉ ents) ->
  exists m', PartitionMap.Stop ents m = Ret m' /\
    forall tp,
      (forall c, (tp, Some c) ∈ ents -> m' !! tp = Some (Some (Close c).1.2)) /\
      (tp ∉ ents.*1 -> m' !! tp = m !! tp).
Proof.
  revert m. induction ents as [|[tp0 pc0] rest IH]; intros m Hnd Hnn.
  - exists m. split; [reflexivity|]. intros tp.
    split; [intros c Hin; inversion Hin|reflexivity].
  - cbn [fmap list_fmap fst] in Hnd. apply NoDup_cons in Hnd as [Hnin Hnd].
    destruct pc0 as [c0|]; [|exfalso; apply (Hnn tp0); left].
    cbn [PartitionMap.Stop].
    destruct (IH (<[tp0 := Some (Close c0).1.2]> m) Hnd) as (m' & Hrun & Hspec).
    { intros tp Hin. apply (Hnn tp). by right. }
    exists m'. split; [exact Hrun|]. intros tp. split.
    + intros c Hin. apply elem_of_cons in Hin as [Heq|Hin].
      * injection Heq as -> ->.
        rewrite (proj2 (Hspec tp0) Hnin). apply lookup_insert_eq.
      * exact (proj1 (Hspec tp) c Hin).
    + intros Hn. cbn [fmap list_fmap fst] in Hn.
      rewrite (proj2 (Hspec tp)) by (intros H; apply Hn; by right).
      apply lookup_insert_ne. intros ->. apply Hn. left.
Qed.

Lemma Stop_result (m : partitionMap) (ents : list (topicPartition * handle)) :
  range_entries m ents -> (forall tp, m !! tp <> Some None) ->
  PartitionMap.Stop ents m =
    Ret ((fun pc => match pc with Some c => Some (Close c).1.2 | None => None end) <$> m).
Proof.
  intros Hr Hnn.
  destruct (Stop_list ents m (range_entries_nodup m ents Hr)) as (m' & Hrun & Hspec).
  { intros tp Hin. apply (range_entries_elem m ents) in Hin; [|exact Hr].
    exact (Hnn tp Hin). }
  rewrite Hrun. f_equal. apply map_eq. intros tp. rewrite lookup_fmap.
  destruct (m !! tp) as [pc|] eqn:Hm; cbn.
  - destruct pc as [c|]; [|exfalso; exact (Hnn tp Hm)].
    apply (proj1 (Hspec tp)). by apply (range_entries_elem m ents).
  - rewrite (proj2 (Hspec tp)); [exact Hm|].
    intros Hin. apply list_elem_of_fmap in Hin as ([tp' pc] & -> & Hin).
    apply (range_entries_elem m ents) in Hin; [|exact Hr]. cbn in Hm. congruence.
Qed.

Lemma Close_closes (c : partitionConsumer) :
  closed (Close c).1.2 = true /\ state (Close c).1.2 = state c.
Proof. unfold Close. destruct (closed c) eqn:H; cbn; auto. Qed.

(** [Stop] on a registry without nil entries closes every consumer
    and leaves their offsets ledgers alone, and a second [Stop] changes
    nothing, whichever order each range takes. *)
Theorem Stop_closes_all (m : partitionMap) (ents : list (topicPartition * handle)) :
  range_entries m ents -> (forall tp, m !! tp <> Some None) ->
  exists m', PartitionMap.Stop ents m = Ret m' /\
    (forall tp, is_Some (m' !! tp) <-> is_Some (m !! tp)) /\
    (forall tp c', m' !! tp = Some (Some c') ->
       closed c' = true /\ exists c, m !! tp = Some (Some c) /\ state c' = state c) /\
    (forall ents', range_entries m' ents' -> PartitionMap.Stop ents' m' = Ret m').
Proof.
  intros Hr Hnn. rewrite (Stop_result m ents Hr Hnn). eexists. split; [reflexivity|].
  split; [|split].
  - intros tp. rewrite lookup_fmap. destruct (m !! tp); cbn; split; intros H;
      (done || by destruct H).
  - intros tp c'. rewrite lookup_fmap. destruct (m !! tp) as [[c|]|] eqn:Hm; cbn;
      intros H; try discriminate.
    injection H as <-. destruct (Close_closes c) as [Hcl Hst].
    split; [exact Hcl|]. exists c. auto.
  - intros ents' Hr'. rewrite (Stop_result _ ents' Hr').
    + f_equal. apply map_eq. intros tp. rewrite !lookup_fmap.
      destruct (m !! tp) as [[c|]|]; cbn; try reflexivity.
      rewrite (Close_closed (Close c).1.2); [reflexivity|].
      apply Close_closes.
    + intros tp. rewrite lookup_fmap. destruct (m !! tp) as [[c|]|] eqn:Hm; cbn;
        try discriminate. exfalso. exact (Hnn tp Hm).
Qed.

Lemma Stop_closes_all_witness :
  range_entries reg_clean (map_to_list reg_clean) /\
  (forall tp, reg_clean !! tp <> Some None) /\
  exists m', PartitionMap.Stop (map_to_list reg_clean) reg_clean = Ret m' /\
    (forall tp, is_Some (m' !! tp) <-> is_Some (reg_clean !! tp)) /\
    (forall tp c', m' !! tp = Some (Some c') ->
       closed c' = true /\ exists c, reg_clean !! tp = Some (Some c) /\ state c' = state c) /\
    (forall ents', range_entries m' ents' -> PartitionMap.Stop ents' m' = Ret m').
Proof.
  assert (Hnn : forall tp, reg_clean !! tp <> Some None).
  { intros tp Hc. unfold reg_clean, reg_sample in Hc.
    rewrite lookup_delete in Hc. case_decide; [discriminate|].
    repeat (rewrite lookup_insert in Hc; case_decide; [congruence|]).
    rewrite lookup_empty in Hc. discriminate. }
  split; [unfold range_entries; reflexivity|]. split; [exact Hnn|].
  apply (Stop_closes_all reg_clean); [unfold range_entries; reflexivity|exact Hnn].
Defined.

Lemma Stop_nil_list (ents : list (topicPartition * handle)) (tp : topicPartition)
    (m : partitionMap) :
  (tp, None) ∈ ents -> PartitionMap.Stop ents m = Panic NilPointerDeref.
Proof.
  revert m. induction ents as [|[tp0 pc0] rest IH]; intros m Hin.
  - inversion Hin.
  - cbn [PartitionMap.Stop]. destruct pc0 as [c0|]; [|reflexivity].
    apply IH. apply elem_of_cons in Hin as [Heq|Hin]; [discriminate|exact Hin].
Qed.

(** A nil consumer stored anywhere in the registry makes [Stop]
    dereference nil, whatever the order of the range. *)
Theorem Stop_nil_panics (m : partitionMap) (ents : list (topicPartition * handle))
    (tp : topicPartition) :
  range_entries m ents -> m !! tp = Some None ->
  PartitionMap.Stop ents m = Panic NilPointerDeref.
Proof.
  intros Hr Hm. apply (Stop_nil_list ents tp).
  by apply (range_entries_elem m ents).
Qed.

Lemma Stop_nil_panics_witness :
  range_entries reg_sample (map_to_list reg_sample) /\
  reg_sample !! (gs "b"%string, 2%Z) = Some None /\
  PartitionMap.Stop (map_to_list reg_sample) reg_sample = Panic NilPointerDeref.
Proof.
  split; [unfold range_entries; reflexivity|]. split; [reflexivity|].
  apply (Stop_nil_panics reg_sample _ (gs "b"%string, 2%Z));
    [unfold range_entries; reflexivity|reflexivity].
Defined.

Lemma info_loop_lookup (ents : list (topicPartition * handle))
    (info : gmap gostring (list Z)) (topic : gostring) :
  PartitionMap.info_loop ents info !! topic =
    match topic_parts topic ents with
    | [] => info !! topic
    | ps => Some (default [] (info !! topic) ++ ps)
    end.
Proof.
  revert info. induction ents as [|[[t p] h] rest IH]; intros info;
    cbn [PartitionMap.info_loop topic_parts]; [reflexivity|].
  rewrite IH. destruct (decide (t = topic)) as [->|Hne].
  - rewrite lookup_insert_eq. cbn [default].
    destruct (topic_parts topic rest); [reflexivity|].
    unfold id. by rewrite <- app_assoc.
  - rewrite lookup_insert_ne by exact Hne. reflexivity.
Qed.

Lemma topic_parts_elem (topic : gostring) (ents : list (topicPartition * handle))
    (p : Z) :
  p ∈ topic_parts topic ents <-> exists h, ((topic, p), h) ∈ ents.
Proof.
  induction ents as [|[[t q] h] rest IH]; cbn [topic_parts].
  - split; [intros H; inversion H|intros [h H]; inversion H].
  - destruct (decide (t = topic)) as [->|Hne].
    + rewrite elem_of_cons, IH. split.
      * intros [->|[h' Hin]]; [exists h; left|exists h'; by right].
      * intros [h' Hin]. apply elem_of_cons in Hin as [Heq|Hin];
          [injection Heq as -> _; by left|right; by exists h'].
    + rewrite IH. split.
      * intros [h' Hin]. exists h'. by right.
      * intros [h' Hin]. apply elem_of_cons in Hin as [Heq|Hin];
          [injection Heq as -> _ _; congruence|by exists h'].
Qed.

Lemma topic_parts_nodup (topic : gostring) (ents : list (topicPartition * handle)) :
  NoDup ents.*1 -> NoDup (topic_parts topic ents).
Proof.
  induction ents as [|[[t q] h] rest IH]; intros Hnd; cbn [topic_parts];
    [constructor|].
  cbn [fmap list_fmap fst] in Hnd. apply NoDup_cons in Hnd as [Hnin Hnd].
  destruct (decide (t = topic)) as [->|]; [|by apply IH].
  constructor; [|by apply IH].
  intros Hq. apply topic_parts_elem in Hq as [h' Hq].
  apply Hnin. exact (fst_elem rest _ _ Hq).
Qed.

Lemma sorted_le_nodup_lt (l : list Z) :
  Sorted Z.le l -> NoDup l -> Sorted Z.lt l.
Proof.
  induction l as [|a l IH]; intros Hs Hnd; [constructor|].
  apply Sorted_inv in Hs as [Hs Hhd]. apply NoDup_cons in Hnd as [Hnin Hnd].
  constructor; [by apply IH|].
  destruct l as [|b l]; constructor.
  apply HdRel_inv in Hhd.
  assert (a <> b) by (intros ->; apply Hnin; left). lia.
Qed.

(** [Info] groups the registry's keys by topic: a topic maps to a
    strictly ascending list of exactly its partitions, and a topic with
    no partition in the registry is absent. *)
Theorem Info_groups_sorted (m : partitionMap) (ents : list (topicPartition * handle))
    (topic : gostring) :
  range_entries m ents ->
  match PartitionMap.Info ents !! topic with
  | None => forall partition, m !! (topic, partition) = None
  | Some l => l <> [] /\ Sorted Z.lt l /\
              forall partition, partition ∈ l <-> is_Some (m !! (topic, partition))
  end.
Proof.
  intros Hr. unfold PartitionMap.Info. rewrite lookup_fmap, info_loop_lookup, lookup_empty.
  assert (Hmem : forall p, p ∈ topic_parts topic ents <-> is_Some (m !! (topic, p))).
  { intros p. rewrite topic_parts_elem. split.
    - intros [h Hin]. exists h. by apply (range_entries_elem m ents).
    - intros [h Hh]. exists h. by apply (range_entries_elem m ents). }
  pose proof (topic_parts_nodup topic ents (range_entries_nodup m ents Hr)) as Hnd.
  destruct (topic_parts topic ents) as [|q qs] eqn:Hps; cbn [fmap option_fmap option_map default].
  - intros p. destruct (m !! (topic, p)) eqn:Hm; [|reflexivity].
    exfalso. assert (Hin : p ∈ ([] : list Z)) by (apply Hmem; by eexists).
    inversion Hin.
  - unfold PartitionMap.sort_int32. cbn [app id] in *.
    pose proof (merge_sort_Permutation (≤)%Z (q :: qs)) as Hperm.
    split; [|split].
    + intros Hnil. apply Permutation_length in Hperm. rewrite Hnil in Hperm.
      discriminate.
    + apply sorted_le_nodup_lt; [apply Sorted_merge_sort; intros x y; lia|].
      by rewrite Hperm.
    + intros p. rewrite Hperm. apply Hmem.
Qed.

Lemma Info_groups_sorted_witness :
  range_entries reg_sample (map_to_list reg_sample) /\
  PartitionMap.Info (map_to_list reg_sample) !! gs "a"%string = Some [0%Z; 1%Z] /\
  ([0%Z; 1%Z] <> [] /\ Sorted Z.lt [0%Z; 1%Z] /\
   forall partition, partition ∈ [0%Z; 1%Z] <->
     is_Some (reg_sample !! (gs "a"%string, partition))).
Proof.
  split; [unfold range_entries; reflexivity|].
  assert (Hl : PartitionMap.Info (map_to_list reg_sample) !! gs "a"%string = Some [0%Z; 1%Z])
    by (vm_compute; reflexivity).
  split; [exact Hl|].
  pose proof (Info_groups_sorted reg_sample (map_to_list reg_sample) (gs "a"%string)) as H.
  rewrite Hl in H. apply H. unfold range_entries; reflexivity.
Defined.

(* ------------------------------------------------------------------ *)
(** ** State, once more *)

Lemma deserialize_parts_nil_ret (parts : list gostring) (pm : gomap) :
  deserialize_parts None parts = Ret pm -> pm = None.
Proof.
  induction parts as [|k ks IH]; cbn [deserialize_parts]; intros H.
  - by injection H as <-.
  - destruct k as [|c r]; [exact (IH H)|].
    destruct (ParseInt (c :: r)); [discriminate|exact (IH H)].
Qed.

(** [State] is stable: storing back the state it reported and asking
    again gives the same state (for the range order of the consumer's
    own pending map). *)
Theorem State_idempotent (ord : list Z) (c : partitionConsumer) (st : partitionState) :
  range_order (PendingOffsets (Info (state c))) ord ->
  State ord (Some c) = Ret st ->
  State ord (Some (with_state c st)) = Ret st.
Proof.
  destruct c as [p [[off pm md] d] cl dy]. unfold range_order.
  cbn [state Info PendingOffsets]. intros Hord Hs.
  cbn [State state Info Metadata PendingOffsets] in Hs.
  destruct md as [|a md'].
  - injection Hs as <-. unfold with_state, with_info, Serialize, set_Metadata.
    cbn [State state Info Metadata PendingOffsets Offset Dirty].
    destruct (serialize_keys ord) as [|b k] eqn:Hk; [unfold with_info, Serialize, set_Metadata; cbn; by rewrite Hk|].
    destruct (map_len pm =? 0)%nat eqn:Hlen; [|reflexivity].
    exfalso. apply Nat.eqb_eq in Hlen. unfold map_len in Hlen.
    assert (Hnil : ord = []).
    { assert (Hl : length ord = 0%nat) by (rewrite Hord; exact Hlen).
      destruct ord; [reflexivity|discriminate]. }
    subst ord. discriminate.
  - destruct (map_len pm =? 0)%nat eqn:Hlen; rewrite ?Hlen in Hs.
    + unfold Deserialize in Hs. cbn [PendingOffsets Metadata] in Hs.
      destruct pm as [m|].
      * rewrite deserialize_parts_alloc in Hs. cbn [obind] in Hs.
        injection Hs as <-.
        set (S := list_to_set (omap ParseInt (split_comma (a :: md'))) : gset Z).
        unfold with_state, with_info, set_PendingOffsets.
        cbn [State state Info Metadata PendingOffsets Offset Dirty].
        match goal with |- context [(map_len ?x =? 0)%nat] => destruct (map_len x =? 0)%nat end; [|reflexivity].
        unfold Deserialize. cbn [PendingOffsets Metadata].
        rewrite deserialize_parts_alloc. cbn [obind]. fold S.
        unfold with_info, set_PendingOffsets. cbn.
        by rewrite <- (union_assoc_L m), union_idemp_L.
      * destruct (deserialize_parts None (split_comma (a :: md'))) as [pm'|q] eqn:Hd;
          cbn [obind] in Hs; [|discriminate].
        pose proof (deserialize_parts_nil_ret _ _ Hd) as ->. injection Hs as <-.
        unfold with_state, with_info, set_PendingOffsets.
        cbn [State state Info Metadata PendingOffsets Offset Dirty].
        rewrite Hlen. unfold Deserialize. cbn [PendingOffsets Metadata].
        rewrite Hd. reflexivity.
    + injection Hs as <-. cbn [State with_state state Info Metadata PendingOffsets].
      rewrite Hlen. reflexivity.
Qed.

Lemma State_idempotent_witness :
  range_order (PendingOffsets (Info (state consumer_pending5))) [5%Z] /\
  State [5%Z] (Some consumer_pending5) = Ret state_pending5 /\
  State [5%Z] (Some (with_state consumer_pending5 state_pending5)) = Ret state_pending5.
Proof.
  assert (Hord : range_order (PendingOffsets (Info (state consumer_pending5))) [5%Z])
    by (unfold range_order; simpl; rewrite elements_singleton; reflexivity).
  split; [exact Hord|]. split; [vm_compute; reflexivity|].
  apply State_idempotent; [exact Hord|vm_compute; reflexivity].
Defined.

(* ------------------------------------------------------------------ *)
(** ** newPartitionConsumer, all outcomes *)

(** [newPartitionConsumer] never returns a closed or dirty consumer and
    never changes the caller's pending offsets or metadata: the ledger
    it starts from is [info], or [info] with its offset reset to -1 after
    an out-of-range first request.  Its errors come from the manager:
    from the first request, or from the retry at [defaultOffset] after an
    out-of-range first request. *)
Theorem newPartitionConsumer_outcomes (manager : consumer_manager)
    (topic : gostring) (partition : Z) (info : offsetInfo) (ord : list Z)
    (dflt : Z) :
  (forall c, newPartitionConsumer manager topic partition info ord dflt = inl c ->
     closed c = false /\ dying_closed c = false /\ Dirty (state c) = false /\
     (Info (state c) = info \/ Info (state c) = set_Offset info (-1))) /\
  (forall err, newPartitionConsumer manager topic partition info ord dflt = inr err ->
     manager topic partition (NextOffset info ord dflt) = inr err /\
       err <> ErrOffsetOutOfRange \/
     manager topic partition (NextOffset info ord dflt) = inr ErrOffsetOutOfRange /\
       manager topic partition dflt = inr err).
Proof.
  unfold newPartitionConsumer.
  destruct (manager topic partition (NextOffset info ord dflt)) as [p|[|msg]] eqn:H1.
  - split; intros ? Hc; [injection Hc as <-; cbn; auto|discriminate].
  - destruct (manager topic partition dflt) as [p|err'] eqn:H2.
    + split; intros ? Hc; [injection Hc as <-; cbn; auto|discriminate].
    + split; intros ? Hc; [discriminate|]. injection Hc as <-. right. auto.
  - split; intros ? Hc; [discriminate|]. injection Hc as <-. left. split; [reflexivity|discriminate].
Qed.

(* ------------------------------------------------------------------ *)
(** ** Pending offsets on a nil map *)

(** A consumer built by [newPartitionConsumer] from a ledger whose
    pending map is nil cannot record a pending offset: [AddPendingOffset]
    writes to the nil map and panics, while [RemovePendingOffset] (a
    [delete] on the nil map) leaves the consumer unchanged. *)
Theorem nil_pending_map_add_remove (manager : consumer_manager) (topic : gostring)
    (partition : Z) (info : offsetInfo) (ord : list Z) (dflt : Z)
    (c : partitionConsumer) (offset : Z) :
  PendingOffsets info = None ->
  newPartitionConsumer manager topic partition info ord dflt = inl c ->
  AddPendingOffset (Some c) offset = Panic NilMapWrite /\
  RemovePendingOffset (Some c) offset = Ret (Some c).
Proof.
  intros Hnil Hnew.
  destruct (newPartitionConsumer_info manager topic partition info ord dflt c Hnew)
    as [Hpo _].
  rewrite Hnil in Hpo. unfold AddPendingOffset, RemovePendingOffset.
  rewrite Hpo. split; reflexivity.
Qed.

Lemma nil_pending_map_add_remove_witness :
  exists c, newPartitionConsumer always_ok (gs "t"%string) 0 ledger_nil_map [] 0 = inl c /\
    AddPendingOffset (Some c) 9 = Panic NilMapWrite /\
    RemovePendingOffset (Some c) 9 = Ret (Some c).
Proof.
  eexists. split; [reflexivity|].
  apply (nil_pending_map_add_remove always_ok (gs "t"%string) 0 ledger_nil_map [] 0);
    reflexivity.
Defined.
